(** * The command dispatcher of friendly-bot (class [Command])

    A shallow embedding of the [Command] class: construction, the
    permission check, the recursive [process] dispatch and the three
    registration methods, followed by the properties of the dispatcher
    that the specification states.

    Modelling conventions.
    - A JavaScript object used as a table ([subcommands],
      [subcommandAliases], [requirements.permissions], the permission
      [json] of the platform) is a [gmap] over its own string keys.
      The assignment [table[k] = undefined] is modelled by [delete]:
      every read of these tables in the class is [table[k]] tested for
      truthiness or against [undefined], which cannot tell a key that
      holds [undefined] from a missing key.
    - [process] and the registration methods are first given over the
      own keys of the tables.  The members every object inherits from
      [Object.prototype] are added for the lookup of [process]
      ([lookup_js], [process_js]); statements about the registration
      methods that depend on them take the names not to be inherited.
    - Strings are [string]; [toLowerCase] acts on the ASCII letters,
      and [lookup_js] takes the lower-casing as a parameter.
    - A [throw] is the [Throw] outcome of a method.  A method that
      mutates [this] returns the new [this] next to its outcome.
    - Generator functions are pure functions of the message and the
      arguments; [Math.random()] is an explicit rational in [0,1).
    - The constructor keeps the caller's [options.aliases] array as the
      alias list of the node and fills the missing fields of the
      caller's [options.requirements] in place; alias lists are values
      here, and no statement relies on two nodes not sharing one. *)

From Stdlib Require Import Ascii QArith Qround.
From stdpp Require Import gmap strings list fin_maps.

Local Set Warnings "-register-all".
Local Open Scope string_scope.
Local Open Scope nat_scope.

(** ** Outcomes *)

(** The errors the class can raise: the five [throw new Error(...)]
    sites and the [TypeError] of a property read on [undefined]. *)
Inductive error : Type :=
| InvalidGenerator              (* "Invalid command response generator" *)
| InvalidGeneratorAt (index : nat) (* "... generator (index i)" *)
| InvalidLabel                  (* "Subcommand label may not have spaces" *)
| DuplicateLabel                (* "You have already registered a subcommand for ..." *)
| UnknownLabel                  (* "No subcommand registered for ..." *)
| DuplicateAlias                (* "Alias ... already registered" *)
| TypeError.                    (* property access on undefined *)

Inductive result (A : Type) : Type :=
| Ok (a : A)
| Throw (e : error).
Arguments Ok {A} a.
Arguments Throw {A} e.

Definition rbind {A B} (m : result A) (k : A → result B) : result B :=
  match m with
  | Ok a => k a
  | Throw e => Throw e
  end.

#[export] Instance result_ret : MRet result := λ A a, Ok a.
#[export] Instance result_bind : MBind result := λ A B k m, rbind m k.

(** ** The platform objects read by the dispatcher *)

(** What [permissionCheck] reads of [msg.channel.guild]:
    [msg.channel.permissionsOf(msg.author.id).json], the roles of
    [guild.members.get(msg.author.id)] ([None] when the author is not a
    cached member) and the names of [guild.roles]. *)
Record Guild : Type := mkGuild {
  permissions_json : gmap string bool;
  member_roles : option (list string);
  role_names : gmap string string
}.

Record Message : Type := mkMessage {
  author_id : string;
  channel_guild : option Guild
}.

(** ** Values and generators *)

(** What [execute] can return. *)
Inductive value : Type :=
| VUndefined
| VString (s : string)
| VFunction (f : Message → list string → value).

Definition handler : Type := Message → list string → value.

(** The [generator] argument of the constructor, by its JavaScript
    type. *)
Inductive jsgen : Type :=
| GString (s : string)
| GArray (items : list jsgen)
| GFunction (f : handler)
| GOther.

(** The three shapes of [this.execute] the constructor installs. *)
Inductive executor : Type :=
| ExecResponse (response : string)        (* () => this.response *)
| ExecResponses (responses : list handler) (* () => this.responses[floor(random * length)] *)
| ExecGenerator (f : handler).            (* generator *)

(** ** Requirements and options *)

Record Requirements : Type := mkRequirements {
  userIDs : list string;
  permissions : gmap string bool;
  roleIDs : list string;
  roleNames : list string
}.

(** [options.requirements] as the caller passes it: each field may be
    missing. *)
Record RequirementsArg : Type := mkRequirementsArg {
  arg_userIDs : option (list string);
  arg_permissions : option (gmap string bool);
  arg_roleIDs : option (list string);
  arg_roleNames : option (list string)
}.

Record Options : Type := mkOptions {
  opt_description : option string;
  opt_fullDescription : option string;
  opt_usage : option string;
  opt_aliases : option (list string);
  opt_caseInsensitive : bool;
  opt_requirements : option RequirementsArg;
  opt_deleteCommand : bool;
  opt_serverOnly : bool
}.

(** The object [{}]. *)
Definition no_options : Options :=
  mkOptions None None None None false None false false.

(** ** The command node *)

Inductive Command : Type := mkCommand {
  label : string;
  description : string;
  fullDescription : string;
  usage : string;
  aliases : list string;
  caseInsensitive : bool;
  requirements : Requirements;
  deleteCommand : bool;
  serverOnly : bool;
  execute : executor;
  subcommands : gmap string Command;
  subcommandAliases : gmap string string
}.

Definition with_aliases (f : list string → list string) (c : Command) : Command :=
  mkCommand (label c) (description c) (fullDescription c) (usage c)
    (f (aliases c)) (caseInsensitive c) (requirements c) (deleteCommand c)
    (serverOnly c) (execute c) (subcommands c) (subcommandAliases c).

Definition with_subcommands
    (f : gmap string Command → gmap string Command) (c : Command) : Command :=
  mkCommand (label c) (description c) (fullDescription c) (usage c)
    (aliases c) (caseInsensitive c) (requirements c) (deleteCommand c)
    (serverOnly c) (execute c) (f (subcommands c)) (subcommandAliases c).

Definition with_subcommandAliases
    (f : gmap string string → gmap string string) (c : Command) : Command :=
  mkCommand (label c) (description c) (fullDescription c) (usage c)
    (aliases c) (caseInsensitive c) (requirements c) (deleteCommand c)
    (serverOnly c) (execute c) (subcommands c) (f (subcommandAliases c)).

(** ** JavaScript primitives used by the class *)

(** Truthiness of a string: every string but the empty one. *)
Definition truthy (s : string) : bool :=
  match s with
  | EmptyString => false
  | String _ _ => true
  end.

(** [a || b] where [a] is a string or [undefined]. *)
Definition or_else (a : option string) (b : string) : string :=
  match a with
  | Some s => if truthy s then s else b
  | None => b
  end.

(** [haystack.includes(needle)]. *)
Fixpoint includes (haystack needle : string) : bool :=
  String.prefix needle haystack ||
  match haystack with
  | EmptyString => false
  | String _ rest => includes rest needle
  end.

Definition lower_ascii (c : Ascii.ascii) : Ascii.ascii :=
  let n := Ascii.nat_of_ascii c in
  if (65 <=? n) && (n <=? 90) then Ascii.ascii_of_nat (n + 32) else c.

(** [s.toLowerCase()]. *)
Fixpoint toLowerCase (s : string) : string :=
  match s with
  | EmptyString => EmptyString
  | String c rest => String (lower_ascii c) (toLowerCase rest)
  end.

(** [l.indexOf(x)]: the first position of [x], or [-1]. *)
Fixpoint indexOf (l : list string) (x : string) : Z :=
  match l with
  | [] => (-1)%Z
  | y :: rest =>
      if bool_decide (y = x) then 0%Z
      else let i := indexOf rest x in
           if (i <? 0)%Z then (-1)%Z else (i + 1)%Z
  end.

(** The test [~i] on a number: bitwise complement, truthy unless 0. *)
Definition tilde_truthy (i : Z) : bool := negb (Z.lnot i =? 0)%Z.

(** [l.splice(start, 1)] for its effect on [l]: a negative [start]
    counts from the end. *)
Definition splice1 (l : list string) (start : Z) : list string :=
  let len := Z.of_nat (length l) in
  let from := if (start <? 0)%Z then Z.max (len + start) 0 else Z.min start len in
  delete (Z.to_nat from) l.

(** [Math.floor(random * length)] for [random] the value of
    [Math.random()]. *)
Definition random_index (random : Q) (length : nat) : Z :=
  Qfloor (random * inject_Z (Z.of_nat length)).

(** [l[i]] on an array. *)
Definition array_get {A} (l : list A) (i : Z) : option A :=
  if (i <? 0)%Z then None else l !! Z.to_nat i.

(** ** The constructor *)

(** The callback of [generator.map] in the array branch.  It tests the
    type of [generator], the array being mapped, not of [item]. *)
Definition response_of_item (generator item : jsgen) (index : nat) : result handler :=
  match generator with
  | GString s => Ok (λ _ _, VString s)
  | GFunction f => Ok f
  | _ => Throw (InvalidGeneratorAt index)
  end.

Fixpoint map_responses (generator : jsgen) (items : list jsgen) (index : nat)
  : result (list handler) :=
  match items with
  | [] => Ok []
  | item :: rest =>
      h ← response_of_item generator item index;
      hs ← map_responses generator rest (S index);
      Ok (h :: hs)
  end.

Definition requirements_of (arg : option RequirementsArg) : Requirements :=
  match arg with
  | None => mkRequirements [] ∅ [] []
  | Some r =>
      mkRequirements (default [] (arg_userIDs r)) (default ∅ (arg_permissions r))
                     (default [] (arg_roleIDs r)) (default [] (arg_roleNames r))
  end.

(** [new Command(label, generator, options)]. *)
Definition new_Command (label : string) (generator : jsgen) (options : Options)
  : result Command :=
  exec ← match generator with
          | GString s => Ok (ExecResponse s)
          | GArray items =>
              responses ← map_responses generator items 0;
              Ok (ExecResponses responses)
          | GFunction f => Ok (ExecGenerator f)
          | GOther => Throw InvalidGenerator
          end;
  Ok (mkCommand label
        (or_else (opt_description options) "No description")
        (or_else (opt_fullDescription options) "No full description")
        (or_else (opt_usage options) "")
        (default [] (opt_aliases options))
        (opt_caseInsensitive options)
        (requirements_of (opt_requirements options))
        (opt_deleteCommand options)
        (opt_serverOnly options)
        exec ∅ ∅).

(** [this.execute(msg, args)]. *)
Definition run_execute (this : Command) (random : Q) (msg : Message) (args : list string)
  : value :=
  match execute this with
  | ExecResponse response => VString response
  | ExecResponses responses =>
      match array_get responses (random_index random (length responses)) with
      | Some f => VFunction f
      | None => VUndefined
      end
  | ExecGenerator f => f msg args
  end.

(** ** permissionCheck *)

(** The loop over [Object.keys(requirements.permissions)]: [flag]
    stays true while every required value is the computed one. *)
Fixpoint permissions_flag (required : list (string * bool)) (computed : gmap string bool)
  : bool :=
  match required with
  | [] => true
  | (key, v) :: rest =>
      if bool_decide (computed !! key = Some v)
      then permissions_flag rest computed
      else false
  end.

(** [roles.map((roleID) => guild.roles.get(roleID).name)]. *)
Fixpoint role_names_of (guild : Guild) (roles : list string) : result (list string) :=
  match roles with
  | [] => Ok []
  | roleID :: rest =>
      match role_names guild !! roleID with
      | None => Throw TypeError
      | Some name => names ← role_names_of guild rest; Ok (name :: names)
      end
  end.

Definition permissionCheck (this : Command) (msg : Message) : result bool :=
  let req := requirements this in
  if (0 <? length (userIDs req)) && negb (tilde_truthy (indexOf (userIDs req) (author_id msg)))
  then Ok false
  else
    match channel_guild msg with
    | None => Ok (negb (serverOnly this) && (length (userIDs req) =? 0))
    | Some guild =>
        let keys := map_to_list (permissions req) in
        if (0 <? length keys) && permissions_flag keys (permissions_json guild)
        then Ok true
        else
          match member_roles guild with
          | None => Throw TypeError
          | Some roles =>
              if (0 <? length (roleIDs req))
                 && existsb (λ roleID, tilde_truthy (indexOf roles roleID)) (roleIDs req)
              then Ok true
              else if (0 <? length (roleIDs req)) && (length (roleNames req) =? 0)
              then Ok false
              else if 0 <? length (roleNames req)
              then
                names ← role_names_of guild roles;
                Ok (existsb (λ roleName, tilde_truthy (indexOf names roleName)) (roleNames req))
              else Ok true
          end
    end.

(** ** process *)

(** The subcommand chosen for the looked-up [label]: the exact key, or
    the lower-cased key when that child is case insensitive. *)
Definition find_subcommand (this : Command) (label : string) : option Command :=
  match subcommands this !! label with
  | Some subcommand => Some subcommand
  | None =>
      match subcommands this !! toLowerCase label with
      | Some subcommand => if caseInsensitive subcommand then Some subcommand else None
      | None => None
      end
  end.

(** [this.subcommandAliases[args[0]] || args[0]]. *)
Definition resolve_label (this : Command) (arg0 : string) : string :=
  or_else (subcommandAliases this !! arg0) arg0.

Fixpoint process (this : Command) (args : list string) (msg : Message) (random : Q)
  {struct args} : result value :=
  permitted ← permissionCheck this msg;
  if negb permitted then Ok VUndefined
  else
    match args with
    | [] => Ok (run_execute this random msg args)
    | arg0 :: rest =>
        match find_subcommand this (resolve_label this arg0) with
        | Some subcommand => process subcommand rest msg random
        | None => Ok (run_execute this random msg args)
        end
    end.

(** ** Methods that mutate [this] *)

(** A method runs on [this] and yields the mutated [this] with its
    outcome; a [throw] keeps the mutations made before it. *)
Definition method (A : Type) : Type := Command → Command * result A.

#[export] Instance method_ret : MRet method := λ A a this, (this, Ok a).
#[export] Instance method_bind : MBind method := λ A B k m this,
  match m this with
  | (this', Ok a) => k a this'
  | (this', Throw e) => (this', Throw e)
  end.

Definition get_this : method Command := λ this, (this, Ok this).
Definition modify_this (f : Command → Command) : method unit := λ this, (f this, Ok ()).
Definition throw {A} (e : error) : method A := λ this, (this, Throw e).
Definition lift_result {A} (r : result A) : method A := λ this, (this, r).

(** [if(table[alias])] on the alias table: the entry is a non-empty
    string. *)
Definition truthy_entry (entry : option string) : bool :=
  match entry with
  | Some s => truthy s
  | None => false
  end.

Definition registerSubcommandAlias (alias label : string) : method unit :=
  this ← get_this;
  if negb (bool_decide (is_Some (subcommands this !! label)))
  then throw UnknownLabel
  else if truthy_entry (subcommandAliases this !! alias)
  then throw DuplicateAlias
  else
    _ ← modify_this (with_subcommandAliases (<[alias := label]>));
    modify_this (with_subcommands (alter (with_aliases (λ l, (l ++ [alias])%list)) label)).

(** [options.aliases.forEach((alias) => { this.subcommandAliases[alias] = label; })]. *)
Definition record_aliases (label : string) (aliases : list string)
    (table : gmap string string) : gmap string string :=
  foldl (λ table alias, <[alias := label]> table) table aliases.

(** The returned [this.subcommands[label]] is the node stored three
    statements earlier. *)
Definition registerSubcommand (label : string) (generator : jsgen)
    (options : option Options) : method Command :=
  this ← get_this;
  if includes label " "
  then throw InvalidLabel
  else if bool_decide (is_Some (subcommands this !! label))
  then throw DuplicateLabel
  else
    let options := default no_options options in
    child ← lift_result (new_Command label generator options);
    _ ← modify_this (with_subcommands (<[label := child]>));
    _ ← match opt_aliases options with
        | Some aliases => modify_this (with_subcommandAliases (record_aliases label aliases))
        | None => mret ()
        end;
    mret child.

Definition unregisterSubcommand (label : string) : method unit :=
  this ← get_this;
  let original := subcommandAliases this !! label in
  if truthy_entry original
  then
    let original := default "" original in
    match subcommands this !! original with
    | None => throw TypeError
    | Some subcommand =>
        let position := indexOf (aliases subcommand) label in
        _ ← modify_this (with_subcommands
               (<[original := with_aliases (λ l, splice1 l position) subcommand]>));
        modify_this (with_subcommandAliases (delete label))
    end
  else modify_this (with_subcommands (delete label)).

(** ** Nodes inside a tree *)

(** The node reached from [root] by a path of canonical labels. *)
Fixpoint node_at (path : list string) (root : Command) : option Command :=
  match path with
  | [] => Some root
  | key :: path' => subcommands root !! key ≫= node_at path'
  end.

(** A method invoked on the node at [path]: the mutation of that node
    is seen from [root], which holds it. *)
Fixpoint at_path {A} (path : list string) (m : method A) (root : Command)
  : option (Command * result A) :=
  match path with
  | [] => Some (m root)
  | key :: path' =>
      child ← subcommands root !! key;
      '(child', r) ← at_path path' m child;
      Some (with_subcommands (<[key := child']>) root, r)
  end.

(** The calls of the registration interface. *)
Inductive call : Type :=
| RegisterSubcommand (label : string) (generator : jsgen) (options : option Options)
| RegisterSubcommandAlias (alias label : string)
| UnregisterSubcommand (label : string).

Definition run_call (c : call) : method unit :=
  match c with
  | RegisterSubcommand label generator options =>
      _ ← registerSubcommand label generator options; mret ()
  | RegisterSubcommandAlias alias label => registerSubcommandAlias alias label
  | UnregisterSubcommand label => unregisterSubcommand label
  end.

(** A setup script: calls on [this], each one run whether or not the
    one before it threw. *)
Definition run_calls (calls : list call) (this : Command) : Command :=
  foldl (λ this c, fst (run_call c this)) this calls.

(** The outcome of each call of a setup script, in order. *)
Fixpoint run_calls_outcomes (calls : list call) (this : Command) : list (result unit) :=
  match calls with
  | [] => []
  | c :: rest => snd (run_call c this) :: run_calls_outcomes rest (fst (run_call c this))
  end.

(** A setup script over a tree: each call is made on the node at its
    path, and skipped when the tree has no such node. *)
Definition run_script (script : list (list string * call)) (root : Command) : Command :=
  foldl (λ root '(path, c),
           match at_path path (run_call c) root with
           | Some (root', _) => root'
           | None => root
           end) root script.

(** The trees the interface can build: a constructed node, then calls
    on any of its nodes. *)
Inductive built : Command → Prop :=
| built_new label generator options root :
    new_Command label generator options = Ok root → built root
| built_call root path c root' r :
    built root → at_path path (run_call c) root = Some (root', r) → built root'.

(** ** Predicates of the specification *)

Definition has_char (c : Ascii.ascii) (s : string) : Prop :=
  c ∈ String.list_ascii_of_string s.

(** Space, tab, line feed, vertical tab, form feed, carriage return. *)
Definition whitespace (c : Ascii.ascii) : Prop :=
  Ascii.nat_of_ascii c ∈ [32; 9; 10; 11; 12; 13].

Definition contains_whitespace (s : string) : Prop :=
  ∃ c, has_char c s ∧ whitespace c.

(** [name] leads to the child registered as [target], as a label or
    through the alias table. *)
Definition leads_to (p : Command) (name target : string) : Prop :=
  is_Some (subcommands p !! target) ∧
  (name = target ∨ subcommandAliases p !! name = Some target).

(** A label and each alias lead to at most one child. *)
Definition names_unambiguous (p : Command) : Prop :=
  ∀ name t1 t2, leads_to p name t1 → leads_to p name t2 → t1 = t2.

(** The alias table of the parent and the alias lists of its children
    hold the same aliases. *)
Definition aliases_agree (p : Command) : Prop :=
  ∀ alias target,
    subcommandAliases p !! alias = Some target ↔
    ∃ child, subcommands p !! target = Some child ∧ alias ∈ aliases child.

Definition registration_invariant (p : Command) : Prop :=
  names_unambiguous p ∧ aliases_agree p.

(** The requirements are the single capability rule [{key: v}]. *)
Definition only_capability_rule (key : string) (v : bool) (this : Command) : Prop :=
  requirements this = mkRequirements [] {[ key := v ]} [] [].

(** The children tables hold no label with a space, anywhere in the
    tree. *)
Inductive labels_wf : Command → Prop :=
| labels_wf_node this :
    (∀ key child, subcommands this !! key = Some child →
                  includes key " " = false ∧ labels_wf child) →
    labels_wf this.

(** ** The lookup of [process] and the inherited members

    The tables above hold the keys a table has itself.  A read
    [table[key]] also finds what every object inherits from
    [Object.prototype]; the definitions here add that, for the lookup
    of [process].  An entry that was assigned [undefined] is absent
    from the model table, whereas the code then reads its own
    [undefined] and not the inherited member: the statements about
    [lookup_js] read names that are not inherited, or a node as the
    constructor leaves it, where the two agree. *)

(** The names every object inherits from [Object.prototype]. *)
Definition inherited_names : list string :=
  ["constructor"; "__defineGetter__"; "__defineSetter__"; "hasOwnProperty";
   "__lookupGetter__"; "__lookupSetter__"; "isPrototypeOf"; "propertyIsEnumerable";
   "toString"; "valueOf"; "__proto__"; "toLocaleString"].

(** [String(member)], the key an inherited member turns into when it
    is used as a property name: the prototype object for [__proto__],
    a native function for the other names. *)
Definition member_text (name : string) : string :=
  if bool_decide (name = "__proto__") then "[object Object]"
  else if bool_decide (name = "constructor") then "function Object() { [native code] }"
  else "function " ++ name ++ "() { [native code] }".

(** What [table[key]] evaluates to. *)
Inductive table_read (V : Type) : Type :=
| Own (v : V)
| Inherited (name : string)
| Absent.
Arguments Own {V} v.
Arguments Inherited {V} name.
Arguments Absent {V}.

Definition table_get {V} (table : gmap string V) (key : string) : table_read V :=
  match table !! key with
  | Some v => Own v
  | None => if bool_decide (key ∈ inherited_names) then Inherited key else Absent
  end.

(** The lookup of [process] for the first token: the child to descend
    into, or none, or the [TypeError] of a member that is no string
    ([label.toLowerCase]) or no command ([subcommand.process]).
    [lower] stands for [String.prototype.toLowerCase].  An inherited
    member found under the lower-cased label has no [caseInsensitive]
    and is passed over. *)
Definition lookup_js (lower : string → string) (this : Command) (arg0 : string)
  : result (option Command) :=
  match table_get (subcommandAliases this) arg0 with
  | Inherited name =>
      match subcommands this !! member_text name with
      | Some subcommand => Ok (Some subcommand)
      | None => Throw TypeError
      end
  | entry =>
      let label := match entry with
                   | Own s => if truthy s then s else arg0
                   | _ => arg0
                   end in
      match table_get (subcommands this) label with
      | Own subcommand => Ok (Some subcommand)
      | Inherited _ => Throw TypeError
      | Absent =>
          match table_get (subcommands this) (lower label) with
          | Own subcommand => Ok (if caseInsensitive subcommand then Some subcommand else None)
          | _ => Ok None
          end
      end
  end.

(** The lookup over the keys the tables hold themselves, as in
    [process] above. *)
Definition own_lookup (this : Command) (arg0 : string) : result (option Command) :=
  Ok (find_subcommand this (resolve_label this arg0)).

(** [process] with its lookup as a parameter: the permission check,
    the call of the generator on an empty token list, the lookup of
    the first token, and the descent into the child it finds. *)
Fixpoint process_with (resolve : Command → string → result (option Command))
    (this : Command) (args : list string) (msg : Message) (random : Q)
  {struct args} : result value :=
  permitted ← permissionCheck this msg;
  if negb permitted then Ok VUndefined
  else
    match args with
    | [] => Ok (run_execute this random msg args)
    | arg0 :: rest =>
        found ← resolve this arg0;
        match found with
        | Some subcommand => process_with resolve subcommand rest msg random
        | None => Ok (run_execute this random msg args)
        end
    end.

Definition process_js (lower : string → string) :
    Command → list string → Message → Q → result value :=
  process_with (lookup_js lower).

(** [path_to resolve this args before node left]: from [this], the
    tokens of [args] lead through the nodes [before] to [node], where
    the tokens [left] remain. *)
Inductive path_to (resolve : Command → string → result (option Command))
  : Command → list string → list Command → Command → list string → Prop :=
| path_here this args : path_to resolve this args [] this args
| path_step this arg0 rest subcommand before node left :
    resolve this arg0 = Ok (Some subcommand) →
    path_to resolve subcommand rest before node left →
    path_to resolve this (arg0 :: rest) (this :: before) node left.

(** The names a registration call looks up in the tables of its node. *)
Definition call_names (c : call) : list string :=
  match c with
  | RegisterSubcommand label _ _ => [label]
  | RegisterSubcommandAlias alias label => [alias; label]
  | UnregisterSubcommand label => [label]
  end.


(** ** Example objects *)

Module Examples.

(** [new Command("root", (msg, args) => "root:" + args.join(","), {})]. *)
Definition root_generator : handler :=
  λ _ args, VString ("root:" ++ String.concat "," args).

Definition fresh_root : Command :=
  mkCommand "root" "No description" "No full description" "" [] false
    (mkRequirements [] ∅ [] []) false false (ExecGenerator root_generator) ∅ ∅.

Definition with_alias_list (l : list string) : option Options :=
  Some (mkOptions None None None (Some l) false None false false).

Definition case_insensitive : option Options :=
  Some (mkOptions None None None None true None false false).

(** [{requirements: {permissions: {manageMessages: true}}}]. *)
Definition purge_options : Options :=
  mkOptions None None None None false
    (Some (mkRequirementsArg None (Some {[ "manageMessages" := true ]}) None None))
    false false.

Definition purge : Command :=
  mkCommand "purge" "No description" "No full description" "" [] false
    (mkRequirements [] {[ "manageMessages" := true ]} [] []) false false
    (ExecResponse "done") ∅ ∅.

(** A member of the guild whose computed flags hold
    [manageMessages: false], and one whose flags lack the key. *)
Definition refused_member : Message :=
  mkMessage "42" (Some (mkGuild {[ "manageMessages" := false ]} (Some []) ∅)).

Definition flagless_member : Message :=
  mkMessage "42" (Some (mkGuild ∅ (Some []) ∅)).

Definition direct_message : Message := mkMessage "42" None.

Definition owner_only : Command :=
  mkCommand "eval" "No description" "No full description" "" [] false
    (mkRequirements ["42"] ∅ [] []) false false (ExecResponse "ok") ∅ ∅.

(** A label with a tab in it. *)
Definition tab_label : string := String (Ascii.ascii_of_nat 9) "x".

Definition role_tree : Command :=
  run_calls [RegisterSubcommand "Role" (GString "child") case_insensitive] fresh_root.

Definition ban_tree : Command :=
  run_calls [RegisterSubcommand "ban" (GString "banned") (with_alias_list ["b"])] fresh_root.

Definition shared_alias_calls : list call :=
  [RegisterSubcommand "a" (GString "A") (with_alias_list ["x"]);
   RegisterSubcommand "b" (GString "B") (with_alias_list ["x"])].

Definition label_as_alias_calls : list call :=
  [RegisterSubcommand "a" (GString "A") (with_alias_list ["b"]);
   RegisterSubcommand "b" (GString "B") None].

(** Root, its child ["mod"], and ["ban"] under ["mod"]. *)
Definition nested_tree : Command :=
  run_script [([], RegisterSubcommand "mod" (GString "mod") None);
              (["mod"], RegisterSubcommand "ban" (GString "banned") None)] fresh_root.

Definition empty_label_tree : Command :=
  run_calls [RegisterSubcommand "" (GString "empty") (with_alias_list ["e"])] fresh_root.

(** A root whose child ["mod"] is open to nobody in direct messages
    and whose grandchild ["ban"] has no requirement. *)
Definition ban_leaf : Command :=
  mkCommand "ban" "No description" "No full description" "" [] false
    (mkRequirements [] ∅ [] []) false false (ExecResponse "banned") ∅ ∅.

Definition moderation : Command :=
  mkCommand "mod" "No description" "No full description" "" [] false
    (mkRequirements [] ∅ [] []) false true (ExecResponse "mod")
    {[ "ban" := ban_leaf ]} ∅.

Definition guarded_tree : Command :=
  with_subcommands (<[ "mod" := moderation ]>) fresh_root.

End Examples.

(** Every child is stored under its own label, anywhere in the tree. *)
Inductive keyed_by_label : Command → Prop :=
| keyed_by_label_node this :
    (∀ key child, subcommands this !! key = Some child →
                  label child = key ∧ keyed_by_label child) →
    keyed_by_label this.

(** ** GroupChannel.update *)

Module GroupChannel.

(** A property of the channel or of the payload: [None] is
    [undefined], and [null] is one of the values. *)
Inductive jsvalue : Type :=
| JNull
| JString (s : string).

(** The three properties [update] maintains. *)
Record t : Type := mk {
  name : option jsvalue;
  ownerID : option jsvalue;
  icon : option jsvalue
}.

(** What [update] reads of the payload. *)
Record data : Type := mkData {
  data_name : option jsvalue;
  data_owner_id : option jsvalue;
  data_icon : option jsvalue
}.

(** [field !== undefined ? field : current]. *)
Definition pick (field current : option jsvalue) : option jsvalue :=
  match field with
  | Some v => Some v
  | None => current
  end.

Definition update (d : data) (this : t) : t :=
  mk (pick (data_name d) (name this))
     (pick (data_owner_id d) (ownerID this))
     (pick (data_icon d) (icon this)).

(** The payload that has the defined properties of [later] and, where
    [later] has none, those of [earlier]. *)
Definition overlay (later earlier : data) : data :=
  mkData (pick (data_name later) (data_name earlier))
         (pick (data_owner_id later) (data_owner_id earlier))
         (pick (data_icon later) (data_icon earlier)).

End GroupChannel.

(** ** Further example objects *)

Module Scenarios.

(** A guild where the author holds the role ["r1"], named ["Mods"], and
    has the computed flag [manageMessages: true]. *)
Definition mods_guild : Guild :=
  mkGuild {[ "manageMessages" := true ]} (Some ["r1"]) {[ "r1" := "Mods" ]}.

Definition mod_message : Message := mkMessage "42" (Some mods_guild).

(** A guild message whose author is no cached member. *)
Definition stranger_message : Message :=
  mkMessage "77" (Some (mkGuild ∅ None ∅)).

Definition command_with (req : Requirements) : Command :=
  mkCommand "cmd" "No description" "No full description" "" [] false
    req false false (ExecResponse "ok") ∅ ∅.

Definition role_name_command : Command :=
  command_with (mkRequirements [] ∅ [] ["Mods"]).

Definition flag_command : Command :=
  command_with (mkRequirements [] {[ "manageMessages" := true ]} ["r9"] []).

Definition open_command : Command := command_with (mkRequirements [] ∅ [] []).

(** A guild where the author holds a role the guild has no record of. *)
Definition stale_role_message : Message :=
  mkMessage "42" (Some (mkGuild ∅ (Some ["r1"; "gone"]) {[ "r1" := "Members" ]})).

(** [(msg, args) => "say:" + args.join(",")]. *)
Definition say_generator : handler :=
  λ _ args, VString ("say:" ++ String.concat "," args).

Definition say_tree : Command :=
  run_calls [RegisterSubcommand "say" (GFunction say_generator)
               (Examples.with_alias_list ["s"; "tell"])] Examples.fresh_root.

Definition lower_role_tree : Command :=
  run_calls [RegisterSubcommand "role" (GString "child") Examples.case_insensitive]
            Examples.fresh_root.

(** The children the two trees above hold. *)
Definition say_child : Command :=
  mkCommand "say" "No description" "No full description" "" ["s"; "tell"] false
    (mkRequirements [] ∅ [] []) false false (ExecGenerator say_generator) ∅ ∅.

Definition role_child : Command :=
  mkCommand "role" "No description" "No full description" "" [] true
    (mkRequirements [] ∅ [] []) false false (ExecResponse "child") ∅ ∅.

(** [say_tree] after [registerSubcommandAlias("t", "say")]. *)
Definition say_tree_with_t : Command :=
  fst (registerSubcommandAlias "t" "say" say_tree).

(** A child registered with an alias, unregistered by its label, and
    registered again with another alias: the table still holds the
    first alias, which the new child does not list. *)
Definition reregistered_tree : Command :=
  run_calls [RegisterSubcommand "a" (GString "old") (Examples.with_alias_list ["x"]);
             UnregisterSubcommand "a";
             RegisterSubcommand "a" (GString "new") (Examples.with_alias_list ["y"])]
            Examples.fresh_root.

Definition reregistered_child : Command :=
  mkCommand "a" "No description" "No full description" "" ["y"] false
    (mkRequirements [] ∅ [] []) false false (ExecResponse "new") ∅ ∅.

End Scenarios.

(** * Properties *)

(** ** Primitives *)

Lemma indexOf_ge (l : list string) (x : string) : (-1 ≤ indexOf l x)%Z.
Proof.
  induction l as [|y l IH]; simpl; [lia|].
  case_bool_decide; [lia|]. destruct (Z.ltb_spec (indexOf l x) 0); lia.
Qed.

Lemma indexOf_absent (l : list string) (x : string) :
  indexOf l x = (-1)%Z ↔ x ∉ l.
Proof.
  induction l as [|y l IH]; simpl.
  - split; [intros _; apply not_elem_of_nil | done].
  - rewrite not_elem_of_cons. case_bool_decide as Hy.
    + split; [lia | intros [? _]; congruence].
    + pose proof (indexOf_ge l x).
      destruct (Z.ltb_spec (indexOf l x) 0).
      * split; [intros _; split; [congruence | apply IH; lia] | done].
      * split; [lia | intros [_ Hx]; apply IH in Hx; lia].
Qed.

(** [~l.indexOf(x)] is the membership test. *)
Lemma tilde_truthy_indexOf (l : list string) (x : string) :
  tilde_truthy (indexOf l x) = bool_decide (x ∈ l).
Proof.
  unfold tilde_truthy. pose proof (indexOf_ge l x) as Hge.
  pose proof (indexOf_absent l x) as Habs.
  case_bool_decide as Hx.
  - destruct (Z.eqb_spec (Z.lnot (indexOf l x)) 0) as [E|E]; [|done].
    unfold Z.lnot in E. exfalso. apply Habs; [lia | done].
  - apply Habs in Hx. rewrite Hx. reflexivity.
Qed.

Lemma includes_cons_space (c : ascii) (s : string) :
  includes (String c s) " " = if ascii_dec " " c then true else includes s " ".
Proof.
  change (includes (String c s) " ")
    with ((if ascii_dec " " c then String.prefix "" s else false) || includes s " ").
  destruct (ascii_dec " " c); [by destruct s | done].
Qed.

(** [s.includes(" ")] holds exactly of the strings with a space. *)
Lemma includes_space (s : string) :
  includes s " " = true ↔ has_char " "%char s.
Proof.
  unfold has_char. induction s as [|c s IH].
  - split; [discriminate | intros H; inversion H].
  - rewrite includes_cons_space.
    change (String.list_ascii_of_string (String c s))
      with (c :: String.list_ascii_of_string s).
    rewrite elem_of_cons, <- IH. destruct (ascii_dec " " c) as [Hc|Hc].
    + split; [by left | done].
    + split; [by right | intros [?|?]; congruence].
Qed.

Lemma process_unfold this args msg random :
  process this args msg random =
  permitted ← permissionCheck this msg;
  if negb permitted then Ok VUndefined
  else match args with
       | [] => Ok (run_execute this random msg args)
       | arg0 :: rest =>
           match find_subcommand this (resolve_label this arg0) with
           | Some subcommand => process subcommand rest msg random
           | None => Ok (run_execute this random msg args)
           end
       end.
Proof. destruct args; reflexivity. Qed.

(** ** The permission check *)

(** The flag of the loop over the required capabilities does not
    depend on the order of the keys: it is true when every required
    value is the computed one. *)
Lemma permissions_flag_spec required computed :
  permissions_flag required computed = true ↔
  ∀ key v, (key, v) ∈ required → computed !! key = Some v.
Proof.
  induction required as [|[key v] required IH]; simpl.
  - split; [by intros _ ? ? ?%elem_of_nil | done].
  - case_bool_decide as Hkey.
    + rewrite IH. split.
      * intros Hall k b [[= -> ->]|Hin]%elem_of_cons; [done | by apply Hall].
      * intros Hall k b Hin. apply Hall. by right.
    + split; [done|]. intros Hall. exfalso. apply Hkey, Hall. by left.
Qed.

(** With the capability rule as the only requirement, the check lets
    every guild member through: a mismatch of the flag falls through
    the two empty role lists to the final [return true]. *)
Lemma capability_rule_alone_permits key v this msg guild roles :
  only_capability_rule key v this →
  channel_guild msg = Some guild →
  member_roles guild = Some roles →
  permissionCheck this msg = Ok true.
Proof.
  unfold only_capability_rule, permissionCheck. intros -> -> ->. simpl.
  rewrite map_to_list_singleton. simpl.
  by case_bool_decide.
Qed.

(** C1.  The specification has [process([], actor, ctx)] on a node
    whose only requirement is the capability rule
    [{manageMessages: true}] answer exactly when the computed flag is
    [true].  The code answers a guild member whose flag is [false], and
    one whose flags lack the key: the node [purge] is what the
    constructor builds for that rule, and [process] returns its
    response to both. *)
Theorem process_capability_rule_mismatch_still_answers :
  new_Command "purge" (GString "done") Examples.purge_options = Ok Examples.purge ∧
  only_capability_rule "manageMessages" true Examples.purge ∧
  (channel_guild Examples.refused_member ≫= λ guild,
     permissions_json guild !! "manageMessages") = Some false ∧
  (channel_guild Examples.flagless_member ≫= λ guild,
     permissions_json guild !! "manageMessages") = None ∧
  ∀ random,
    process Examples.purge [] Examples.refused_member random = Ok (VString "done") ∧
    process Examples.purge [] Examples.flagless_member random = Ok (VString "done").
Proof.
  split; [reflexivity|]. split; [reflexivity|].
  split; [reflexivity|]. split; [reflexivity|].
  intros random. rewrite !process_unfold.
  assert (Hrule : only_capability_rule "manageMessages" true Examples.purge)
    by reflexivity.
  rewrite (capability_rule_alone_permits _ _ _ Examples.refused_member _ []
             Hrule eq_refl eq_refl).
  rewrite (capability_rule_alone_permits _ _ _ Examples.flagless_member _ []
             Hrule eq_refl eq_refl).
  split; reflexivity.
Qed.

(** C4.  In a direct message [permissionCheck] returns, and returns
    [true] exactly when [serverOnly] is false and [userIDs] is empty;
    an author listed in [userIDs] is refused. *)
Theorem permissionCheck_direct this msg :
  channel_guild msg = None →
  (permissionCheck this msg = Ok true ∨ permissionCheck this msg = Ok false) ∧
  (permissionCheck this msg = Ok true ↔
     serverOnly this = false ∧ userIDs (requirements this) = []) ∧
  (author_id msg ∈ userIDs (requirements this) → permissionCheck this msg = Ok false).
Proof.
  intros Hdirect. unfold permissionCheck.
  rewrite Hdirect, tilde_truthy_indexOf.
  destruct (userIDs (requirements this)) as [|u us] eqn:Hids; simpl.
  - destruct (serverOnly this); simpl.
    + split; [by right|]. split; [|by intros ?%elem_of_nil].
      split; [discriminate | by intros [? _]].
    + split; [by left|]. split; [done | by intros ?%elem_of_nil].
  - case_bool_decide as Hin; simpl.
    + rewrite andb_false_r. split; [by right|].
      split; [|done]. split; [discriminate | by intros [_ ?]].
    + split; [by right|].
      split; [|done]. split; [discriminate | by intros [_ ?]].
Qed.

Lemma permissionCheck_direct_witness :
  channel_guild Examples.direct_message = None ∧
  author_id Examples.direct_message ∈ userIDs (requirements Examples.owner_only) ∧
  permissionCheck Examples.owner_only Examples.direct_message = Ok false.
Proof.
  split; [reflexivity|]. split; [apply list_elem_of_here|].
  apply (permissionCheck_direct Examples.owner_only Examples.direct_message eq_refl).
  apply list_elem_of_here.
Defined.

(** ** The constructor *)

(** C2.  The specification has the construction of a node from a
    non-empty array of generators succeed.  The constructor throws on
    every such array, at its first item: the callback of [map] tests
    the type of the array, which is neither a string nor a function. *)
Theorem new_Command_array_throws label item items options :
  new_Command label (GArray (item :: items)) options = Throw (InvalidGeneratorAt 0).
Proof. reflexivity. Qed.

(** Had an array been stored, [execute] would hand back the chosen
    function itself, not what it returns when called. *)
Lemma run_execute_responses_uncalled this random msg args responses :
  execute this = ExecResponses responses →
  run_execute this random msg args = VUndefined ∨
  ∃ f, f ∈ responses ∧ run_execute this random msg args = VFunction f.
Proof.
  unfold run_execute, array_get. intros ->.
  destruct (random_index random (length responses) <? 0)%Z; [by left|].
  destruct (responses !! _) as [f|] eqn:Hf; [right | by left].
  exists f. split; [by eapply list_elem_of_lookup_2 | done].
Qed.

(** ** The lookup *)

Ltac not_among :=
  let H := fresh in
  intros H; repeat (apply elem_of_cons in H as [H|H]; [discriminate H|]);
  by apply elem_of_nil in H.

Lemma process_with_unfold resolve this args msg random :
  process_with resolve this args msg random =
  permitted ← permissionCheck this msg;
  if negb permitted then Ok VUndefined
  else match args with
       | [] => Ok (run_execute this random msg args)
       | arg0 :: rest =>
           found ← resolve this arg0;
           match found with
           | Some subcommand => process_with resolve subcommand rest msg random
           | None => Ok (run_execute this random msg args)
           end
       end.
Proof. destruct args; reflexivity. Qed.

(** [process] is [process_with] for the lookup over own keys. *)
Lemma process_own_lookup this args msg random :
  process this args msg random = process_with own_lookup this args msg random.
Proof.
  revert this. induction args as [|arg0 rest IH]; intros this; [done|].
  rewrite process_unfold, process_with_unfold.
  destruct (permissionCheck this msg) as [[]|e]; simpl; [|done|done].
  destruct (find_subcommand this (resolve_label this arg0)); [apply IH | done].
Qed.

Lemma table_get_own {V} (table : gmap string V) key v :
  table !! key = Some v → table_get table key = Own v.
Proof. unfold table_get. by intros ->. Qed.

Lemma table_get_absent {V} (table : gmap string V) key :
  table !! key = None → key ∉ inherited_names → table_get table key = Absent.
Proof. unfold table_get. intros -> Hplain. by rewrite bool_decide_eq_false_2. Qed.


(** A name that leads to a child under its own key, as it stands or
    through its own alias entry, finds that child. *)
Lemma lookup_js_label lower this token child :
  token ∉ inherited_names →
  subcommandAliases this !! token = None →
  subcommands this !! token = Some child →
  lookup_js lower this token = Ok (Some child).
Proof.
  intros Hplain Halias Hchild. unfold lookup_js.
  rewrite (table_get_absent (subcommandAliases this)) by done.
  by rewrite (table_get_own (subcommands this) token child).
Qed.

Lemma lookup_js_alias lower this alias name child :
  subcommandAliases this !! alias = Some name →
  name ≠ "" →
  subcommands this !! name = Some child →
  lookup_js lower this alias = Ok (Some child).
Proof.
  intros Halias Hne Hchild. unfold lookup_js.
  rewrite (table_get_own (subcommandAliases this) alias name) by done.
  replace (truthy name) with true by (by destruct name).
  by rewrite (table_get_own (subcommands this) name child).
Qed.

(** ** Dispatch *)




(** C9.  [process] checks permission at every node it comes to,
    however the lookup chooses the children: when the tokens lead to a
    node at which the check refuses, the check having returned at the
    nodes before it, [process] returns [undefined], whatever the nodes
    below it require. *)
Theorem process_refused_on_path resolve this args msg random before node left :
  path_to resolve this args before node left →
  Forall (λ n, ∃ b, permissionCheck n msg = Ok b) before →
  permissionCheck node msg = Ok false →
  process_with resolve this args msg random = Ok VUndefined.
Proof.
  intros Hpath Hbefore Hdeny.
  induction Hpath as [this args | this arg0 rest sub before node left Hfound _ IH].
  - by rewrite process_with_unfold, Hdeny.
  - apply Forall_cons in Hbefore as [[b Hb] Hbefore].
    rewrite process_with_unfold, Hb. simpl. destruct b; simpl; [|done].
    rewrite Hfound. simpl. by apply IH.
Qed.

Lemma process_refused_on_path_witness :
  permissionCheck Examples.ban_leaf Examples.direct_message = Ok true ∧
  process_js toLowerCase Examples.guarded_tree ["mod"; "ban"] Examples.direct_message 0%Q
  = Ok VUndefined.
Proof.
  split; [reflexivity|].
  apply (process_refused_on_path (lookup_js toLowerCase) Examples.guarded_tree
           ["mod"; "ban"] Examples.direct_message 0%Q
           [Examples.guarded_tree] Examples.moderation ["ban"]).
  - apply (path_step _ _ _ _ Examples.moderation); [reflexivity | apply path_here].
  - apply Forall_cons. split; [by exists true | apply Forall_nil_2].
  - reflexivity.
Defined.

(** C6.  The specification has a case-insensitive child found under
    every spelling of its label.  The code lower-cases the token and
    looks that key up, so a child registered as ["Role"] with
    [caseInsensitive: true] is found under ["Role"] alone: ["role"] and
    ["ROLE"] run the generator of the parent with the token as its
    argument. *)
Theorem process_case_insensitive_mixed_case_label :
  (caseInsensitive <$> subcommands Examples.role_tree !! "Role") = Some true ∧
  toLowerCase "role" = toLowerCase "Role" ∧
  toLowerCase "ROLE" = toLowerCase "Role" ∧
  ∀ random,
    process Examples.role_tree ["Role"] Examples.direct_message random
    = Ok (VString "child") ∧
    process Examples.role_tree ["role"] Examples.direct_message random
    = Ok (VString "root:role") ∧
    process Examples.role_tree ["ROLE"] Examples.direct_message random
    = Ok (VString "root:ROLE").
Proof.
  split; [reflexivity|]. split; [reflexivity|]. split; [reflexivity|].
  intros random. split; [reflexivity|]. split; reflexivity.
Qed.

(** Where the label is already in lower case, every spelling of it
    that is no alias and no label of its own selects the child. *)
Lemma find_subcommand_lower_case this token child :
  subcommands this !! toLowerCase token = Some child →
  caseInsensitive child = true →
  subcommands this !! token = None →
  find_subcommand this token = Some child.
Proof.
  intros Hlower Hci Hexact. unfold find_subcommand.
  by rewrite Hexact, Hlower, Hci.
Qed.

(** ** Registration *)

Lemma registerSubcommand_space label generator options this :
  includes label " " = true →
  registerSubcommand label generator options this = (this, Throw InvalidLabel).
Proof.
  intros Hspace. unfold registerSubcommand, mbind, method_bind, get_this, throw.
  by rewrite Hspace.
Qed.

Lemma registerSubcommand_duplicate label generator options this :
  includes label " " = false →
  is_Some (subcommands this !! label) →
  registerSubcommand label generator options this = (this, Throw DuplicateLabel).
Proof.
  intros Hspace Hdup. unfold registerSubcommand, mbind, method_bind, get_this, throw.
  by rewrite Hspace, bool_decide_eq_true_2.
Qed.

Lemma registerSubcommand_fresh label generator options this :
  includes label " " = false →
  subcommands this !! label = None →
  registerSubcommand label generator options this =
  match new_Command label generator (default no_options options) with
  | Throw e => (this, Throw e)
  | Ok child =>
      (with_subcommandAliases
         (match opt_aliases (default no_options options) with
          | Some aliases => record_aliases label aliases
          | None => id
          end)
         (with_subcommands (<[label := child]>) this),
       Ok child)
  end.
Proof.
  intros Hspace Hfresh.
  unfold registerSubcommand, mbind, method_bind, get_this, throw, lift_result.
  rewrite Hspace, bool_decide_eq_false_2 by (rewrite Hfresh; by intros [? ?]).
  destruct (new_Command _ _ _) as [child|e]; [|done].
  unfold modify_this, mret, method_ret.
  destruct (opt_aliases _); [done|].
  by destruct this.
Qed.

(** C7.  A label with a space in it is refused with the error of
    invalid labels, and [this] is left as it was. *)
Theorem registerSubcommand_rejects_space label generator options this :
  has_char " "%char label →
  registerSubcommand label generator options this = (this, Throw InvalidLabel).
Proof. intros Hspace. by apply registerSubcommand_space, includes_space. Qed.

Lemma registerSubcommand_rejects_space_witness :
  has_char " "%char "ban user" ∧
  registerSubcommand "ban user" (GString "banned") None Examples.fresh_root
  = (Examples.fresh_root, Throw InvalidLabel).
Proof.
  assert (Hspace : has_char " "%char "ban user")
    by (unfold has_char; simpl; do 3 apply list_elem_of_further; apply list_elem_of_here).
  split; [exact Hspace|].
  exact (registerSubcommand_rejects_space "ban user" (GString "banned") None
           Examples.fresh_root Hspace).
Defined.

(** C7, as the specification words it, fails: a label with a tab is
    whitespace but no space, and it is registered. *)
Lemma registerSubcommand_accepts_tab :
  contains_whitespace Examples.tab_label ∧
  ∃ child,
    registerSubcommand Examples.tab_label (GString "A") None Examples.fresh_root
    = (with_subcommands (<[Examples.tab_label := child]>) Examples.fresh_root, Ok child) ∧
    label child = Examples.tab_label.
Proof.
  split.
  - exists (ascii_of_nat 9). split.
    + apply list_elem_of_here.
    + unfold whitespace. simpl. apply list_elem_of_further, list_elem_of_here.
  - exists (mkCommand Examples.tab_label "No description" "No full description" ""
              [] false (mkRequirements [] ∅ [] []) false false (ExecResponse "A") ∅ ∅).
    split; reflexivity.
Qed.

(** ** Unregistration *)

Lemma unregisterSubcommand_canonical label this :
  truthy_entry (subcommandAliases this !! label) = false →
  unregisterSubcommand label this = (with_subcommands (delete label) this, Ok ()).
Proof.
  intros Hcanon. unfold unregisterSubcommand, mbind, method_bind, get_this.
  by rewrite Hcanon.
Qed.

Lemma unregisterSubcommand_dangling alias original this :
  subcommandAliases this !! alias = Some original →
  truthy original = true →
  subcommands this !! original = None →
  unregisterSubcommand alias this = (this, Throw TypeError).
Proof.
  intros Halias Htruthy Hgone.
  unfold unregisterSubcommand, mbind, method_bind, get_this, throw.
  rewrite Halias. simpl. by rewrite Htruthy, Hgone.
Qed.

(** C10.  For a child under a non-empty label [L] that is no alias
    itself and has an alias [A]: unregistering [L] removes the child
    and keeps the entry of [A]; unregistering [A] afterwards throws a
    [TypeError] and changes nothing. *)
Theorem unregisterSubcommand_leaves_alias this L A child :
  subcommands this !! L = Some child →
  subcommandAliases this !! A = Some L →
  subcommandAliases this !! L = None →
  L ≠ "" →
  let this' := with_subcommands (delete L) this in
  unregisterSubcommand L this = (this', Ok ()) ∧
  subcommands this' !! L = None ∧
  subcommandAliases this' !! A = Some L ∧
  unregisterSubcommand A this' = (this', Throw TypeError).
Proof.
  intros Hchild Halias Hcanon Hne this'.
  split; [apply unregisterSubcommand_canonical; by rewrite Hcanon|].
  assert (Hgone : subcommands this' !! L = None) by apply lookup_delete_eq.
  split; [exact Hgone|]. split; [exact Halias|].
  apply (unregisterSubcommand_dangling A L); [exact Halias | by destruct L | exact Hgone].
Qed.

Lemma unregisterSubcommand_leaves_alias_witness :
  subcommandAliases (with_subcommands (delete "ban") Examples.ban_tree) !! "b" = Some "ban" ∧
  unregisterSubcommand "b" (with_subcommands (delete "ban") Examples.ban_tree)
  = (with_subcommands (delete "ban") Examples.ban_tree, Throw TypeError).
Proof.
  destruct (unregisterSubcommand_leaves_alias Examples.ban_tree "ban" "b"
              (mkCommand "ban" "No description" "No full description" "" ["b"] false
                 (mkRequirements [] ∅ [] []) false false (ExecResponse "banned") ∅ ∅))
    as (_ & _ & Hentry & Hthrow);
    [reflexivity | reflexivity | reflexivity | discriminate |].
  split; [exact Hentry | exact Hthrow].
Defined.

(** C10, as the specification words it, fails for the child under the
    empty label: the entry of its alias holds the empty string, which
    is falsy, so unregistering the alias takes the branch of canonical
    labels and returns. *)
Lemma unregisterSubcommand_empty_label_returns :
  is_Some (subcommands Examples.empty_label_tree !! "") ∧
  subcommandAliases Examples.empty_label_tree !! "e" = Some "" ∧
  subcommandAliases Examples.empty_label_tree !! "" = None ∧
  let this' := fst (unregisterSubcommand "" Examples.empty_label_tree) in
  subcommands this' !! "" = None ∧
  subcommandAliases this' !! "e" = Some "" ∧
  snd (unregisterSubcommand "e" this') = Ok ().
Proof.
  split; [by eexists|]. repeat split; reflexivity.
Qed.

(** ** Trees built through the interface *)

Lemma new_Command_tables label generator options this :
  new_Command label generator options = Ok this →
  subcommands this = ∅ ∧ subcommandAliases this = ∅.
Proof.
  unfold new_Command. intros Hnew.
  destruct (match generator with GString _ => _ | _ => _ end) as [exec|e];
    simpl in Hnew; [|discriminate].
  by injection Hnew as <-.
Qed.

Lemma labels_wf_inv this key child :
  labels_wf this → subcommands this !! key = Some child →
  includes key " " = false ∧ labels_wf child.
Proof. intros Hwf. inversion Hwf as [? Hall]. apply Hall. Qed.

Lemma labels_wf_same_subcommands this this' :
  subcommands this' = subcommands this → labels_wf this → labels_wf this'.
Proof.
  intros Heq Hwf. constructor. rewrite Heq. intros key child.
  by apply labels_wf_inv.
Qed.

Lemma labels_wf_insert key child this :
  labels_wf this → includes key " " = false → labels_wf child →
  labels_wf (with_subcommands (<[key := child]>) this).
Proof.
  intros Hwf Hkey Hchild. constructor. intros k c. simpl.
  rewrite lookup_insert. case_decide as Hk.
  - intros [= <-]. by subst k.
  - by apply labels_wf_inv.
Qed.

Lemma labels_wf_delete key this :
  labels_wf this → labels_wf (with_subcommands (delete key) this).
Proof.
  intros Hwf. constructor. intros k c. simpl.
  rewrite lookup_delete. case_decide; [done|]. by apply labels_wf_inv.
Qed.

Lemma labels_wf_new label generator options this :
  new_Command label generator options = Ok this → labels_wf this.
Proof.
  intros [Hsub _]%new_Command_tables. constructor. rewrite Hsub.
  intros key child. by rewrite lookup_empty.
Qed.

Lemma registerSubcommand_labels_wf label generator options this :
  labels_wf this → labels_wf (fst (registerSubcommand label generator options this)).
Proof.
  intros Hwf. destruct (includes label " ") eqn:Hspace.
  { by rewrite registerSubcommand_space. }
  destruct (subcommands this !! label) as [old|] eqn:Hold.
  { by rewrite registerSubcommand_duplicate. }
  rewrite registerSubcommand_fresh by done.
  destruct (new_Command _ _ _) as [child|e] eqn:Hnew; [|done]. simpl.
  apply (labels_wf_same_subcommands (with_subcommands (<[label := child]>) this));
    [reflexivity|].
  apply labels_wf_insert; [done | done | by eapply labels_wf_new].
Qed.

Lemma registerSubcommandAlias_labels_wf alias label this :
  labels_wf this → labels_wf (fst (registerSubcommandAlias alias label this)).
Proof.
  intros Hwf. unfold registerSubcommandAlias, mbind, method_bind, get_this, throw.
  destruct (negb _); [done|]. destruct (truthy_entry _); [done|]. simpl.
  constructor. intros key child. simpl. rewrite lookup_alter.
  case_decide as Hkey.
  - subst key. destruct (subcommands this !! label) as [c|] eqn:Hc; simpl;
      [|discriminate].
    intros [= <-]. destruct (labels_wf_inv _ _ _ Hwf Hc) as [? ?].
    split; [done|]. by apply (labels_wf_same_subcommands c).
  - by apply labels_wf_inv.
Qed.

Lemma unregisterSubcommand_labels_wf label this :
  labels_wf this → labels_wf (fst (unregisterSubcommand label this)).
Proof.
  intros Hwf. unfold unregisterSubcommand, mbind, method_bind, get_this, throw.
  destruct (truthy_entry _).
  - destruct (subcommands this !! default "" _) as [sub|] eqn:Hsub; [|done]. simpl.
    destruct (labels_wf_inv _ _ _ Hwf Hsub) as [? ?].
    apply (labels_wf_same_subcommands
             (with_subcommands (<[default "" (subcommandAliases this !! label) :=
                 with_aliases (λ l, splice1 l (indexOf (aliases sub) label)) sub]>) this));
      [reflexivity|].
    apply labels_wf_insert; [done | done |].
    by apply (labels_wf_same_subcommands sub).
  - simpl. by apply labels_wf_delete.
Qed.

Lemma run_call_labels_wf c this :
  labels_wf this → labels_wf (fst (run_call c this)).
Proof.
  intros Hwf. destruct c as [label generator options|alias label|label]; simpl.
  - pose proof (registerSubcommand_labels_wf label generator options this Hwf) as H.
    unfold mbind, method_bind.
    by destruct (registerSubcommand label generator options this) as [this' [child|e]].
  - by apply registerSubcommandAlias_labels_wf.
  - by apply unregisterSubcommand_labels_wf.
Qed.

Lemma at_path_labels_wf path c root root' r :
  labels_wf root → at_path path (run_call c) root = Some (root', r) → labels_wf root'.
Proof.
  revert root root'. induction path as [|key path IH]; intros root root' Hwf Hat.
  - simpl in Hat. injection Hat as Hat.
    pose proof (run_call_labels_wf c root Hwf) as H. by rewrite Hat in H.
  - simpl in Hat. destruct (subcommands root !! key) as [child|] eqn:Hchild;
      simpl in Hat; [|discriminate].
    destruct (at_path path (run_call c) child) as [[child' r']|] eqn:Hrec;
      simpl in Hat; [|discriminate].
    injection Hat as <- <-.
    destruct (labels_wf_inv _ _ _ Hwf Hchild) as [? ?].
    apply labels_wf_insert; [done | done | by eapply IH].
Qed.

(** No tree built through the interface holds a label with a space. *)
Lemma built_labels_wf root : built root → labels_wf root.
Proof.
  induction 1 as [label generator options root Hnew | root path c root' r _ IH Hat].
  - by eapply labels_wf_new.
  - by eapply at_path_labels_wf.
Qed.

Lemma built_run_script script root : built root → built (run_script script root).
Proof.
  revert root. induction script as [|[path c] script IH]; intros root Hroot; [done|].
  unfold run_script. simpl. apply IH.
  destruct (at_path path (run_call c) root) as [[root' r]|] eqn:Hat; [|done].
  by eapply built_call.
Qed.

Lemma labels_wf_node_at path root node :
  labels_wf root → node_at path root = Some node → labels_wf node.
Proof.
  revert root. induction path as [|key path IH]; intros root Hwf Hnode; simpl in Hnode.
  - by injection Hnode as <-.
  - destruct (subcommands root !! key) as [child|] eqn:Hchild; simpl in Hnode; [|done].
    apply (IH child); [|done]. by eapply labels_wf_inv.
Qed.

Lemma with_subcommands_insert_id key child this :
  subcommands this !! key = Some child →
  with_subcommands (<[key := child]>) this = this.
Proof.
  intros Hchild. destruct this. unfold with_subcommands. simpl in *.
  by rewrite insert_id.
Qed.

(** A method that leaves its node as it was leaves the tree as it was. *)
Lemma at_path_unchanged {A} path (m : method A) root node r :
  node_at path root = Some node → m node = (node, r) →
  at_path path m root = Some (root, r).
Proof.
  revert root. induction path as [|key path IH]; intros root Hnode Hm; simpl in *.
  - injection Hnode as ->. by rewrite Hm.
  - destruct (subcommands root !! key) as [child|] eqn:Hchild; simpl in *; [|done].
    rewrite (IH child) by done. simpl. by rewrite with_subcommands_insert_id.
Qed.

(** C8.  In a tree built through the interface, registering under any
    node a label that node already holds throws the error of duplicate
    labels and leaves the node, and with it the whole tree, as it
    was. *)
Theorem registerSubcommand_duplicate_label root path parent label generator options :
  built root →
  node_at path root = Some parent →
  is_Some (subcommands parent !! label) →
  registerSubcommand label generator options parent = (parent, Throw DuplicateLabel) ∧
  at_path path (registerSubcommand label generator options) root
  = Some (root, Throw DuplicateLabel).
Proof.
  intros Hbuilt Hparent [child Hchild].
  assert (Hdup : registerSubcommand label generator options parent
                 = (parent, Throw DuplicateLabel)).
  { apply registerSubcommand_duplicate; [|by eexists].
    apply built_labels_wf in Hbuilt.
    eapply labels_wf_inv; [by eapply labels_wf_node_at | done]. }
  split; [exact Hdup | by eapply at_path_unchanged].
Qed.

Lemma registerSubcommand_duplicate_label_witness :
  at_path ["mod"] (registerSubcommand "ban" (GString "again") None) Examples.nested_tree
  = Some (Examples.nested_tree, Throw DuplicateLabel).
Proof.
  assert (Hbuilt : built Examples.nested_tree).
  { apply built_run_script.
    by apply (built_new "root" (GFunction Examples.root_generator) no_options). }
  eapply (registerSubcommand_duplicate_label Examples.nested_tree ["mod"] _ "ban"
            (GString "again") None Hbuilt); [reflexivity | by eexists].
Defined.

(** ** The tables of a parent *)

Lemma registration_invariant_fresh_root : registration_invariant Examples.fresh_root.
Proof.
  split.
  - intros name t1 t2 [[c Hc] _]. simpl in Hc. by rewrite lookup_empty in Hc.
  - intros alias target. simpl. rewrite !lookup_empty. split; [done|].
    by intros (child & ? & _).
Qed.

(** C3.  The specification has every sequence of registrations keep
    each name leading to at most one child and the alias table of the
    parent in agreement with the alias lists of the children.  Two
    children registered with the same alias break it: both calls
    return, the table gives the alias to the second child, and the
    first child still lists it. *)
Theorem registration_shared_alias_breaks_invariant :
  registration_invariant Examples.fresh_root ∧
  run_calls_outcomes Examples.shared_alias_calls Examples.fresh_root = [Ok (); Ok ()] ∧
  subcommandAliases (run_calls Examples.shared_alias_calls Examples.fresh_root) !! "x"
  = Some "b" ∧
  (aliases <$> subcommands (run_calls Examples.shared_alias_calls Examples.fresh_root) !! "a")
  = Some ["x"] ∧
  ¬ registration_invariant (run_calls Examples.shared_alias_calls Examples.fresh_root).
Proof.
  split; [apply registration_invariant_fresh_root|].
  split; [reflexivity|]. split; [reflexivity|]. split; [reflexivity|].
  intros [_ Hagree]. destruct (Hagree "x" "a") as [_ Hback].
  assert (Hentry : subcommandAliases
                     (run_calls Examples.shared_alias_calls Examples.fresh_root) !! "x"
                   = Some "a").
  { apply Hback. eexists. split; [reflexivity | apply list_elem_of_here]. }
  vm_compute in Hentry. discriminate.
Qed.

(** The same method lets an alias take the name of a sibling: the name
    then leads to two children. *)
Lemma registration_label_as_alias_is_ambiguous :
  run_calls_outcomes Examples.label_as_alias_calls Examples.fresh_root = [Ok (); Ok ()] ∧
  ¬ names_unambiguous (run_calls Examples.label_as_alias_calls Examples.fresh_root).
Proof.
  split; [reflexivity|]. intros Hunambiguous.
  assert (Heq : "a" = "b"); [|discriminate].
  apply (Hunambiguous "b").
  - split; [by eexists | by right].
  - split; [by eexists | by left].
Qed.

(** Unregistering a child by its label leaves its aliases in the
    table of the parent, where no child lists them any more. *)
Lemma unregister_label_breaks_agreement :
  snd (unregisterSubcommand "ban" Examples.ban_tree) = Ok () ∧
  ¬ aliases_agree (fst (unregisterSubcommand "ban" Examples.ban_tree)).
Proof.
  split; [reflexivity|].
  intros Hagree. destruct (Hagree "b" "ban") as [Hforth _].
  destruct Hforth as (child & Hchild & _); [reflexivity|].
  vm_compute in Hchild. discriminate.
Qed.

(** * Further properties of the code *)

(** ** The permission check, case by case *)

Lemma userIDs_gate_open (req : Requirements) (msg : Message) :
  userIDs req = [] ∨ author_id msg ∈ userIDs req →
  (0 <? length (userIDs req)) && negb (tilde_truthy (indexOf (userIDs req) (author_id msg)))
  = false.
Proof.
  rewrite tilde_truthy_indexOf. intros [-> | Hin]; [done|].
  rewrite bool_decide_eq_true_2 by done. apply andb_false_r.
Qed.

Lemma userIDs_gate_closed (req : Requirements) (msg : Message) :
  userIDs req ≠ [] → author_id msg ∉ userIDs req →
  (0 <? length (userIDs req)) && negb (tilde_truthy (indexOf (userIDs req) (author_id msg)))
  = true.
Proof.
  rewrite tilde_truthy_indexOf. intros Hne Hout.
  rewrite bool_decide_eq_false_2 by done. by destruct (userIDs req).
Qed.

(** The shortcut of the required capabilities is taken when there is
    at least one and each has its required value. *)
Lemma permissions_shortcut_spec (required computed : gmap string bool) :
  (0 <? length (map_to_list required)) && permissions_flag (map_to_list required) computed
  = true ↔
  required ≠ ∅ ∧ map_Forall (λ key v, computed !! key = Some v) required.
Proof.
  rewrite andb_true_iff, permissions_flag_spec. split.
  - intros [Hlen Hall]. split.
    + intros ->. by rewrite map_to_list_empty in Hlen.
    + intros key v Hkey. by apply Hall, elem_of_map_to_list.
  - intros [Hne Hall]. split.
    + destruct (map_to_list required) eqn:Hlist; [|done].
      by apply map_to_list_empty_iff in Hlist.
    + intros key v Hkey%elem_of_map_to_list. by apply Hall.
Qed.

Lemma existsb_indexOf (wanted held : list string) :
  existsb (λ x, tilde_truthy (indexOf held x)) wanted = true ↔
  ∃ x, x ∈ wanted ∧ x ∈ held.
Proof.
  rewrite existsb_exists. split.
  - intros (x & Hx%list_elem_of_In & Hheld). exists x. split; [done|].
    rewrite tilde_truthy_indexOf in Hheld. by apply bool_decide_eq_true in Hheld.
  - intros (x & Hx & Hheld). exists x. split; [by apply list_elem_of_In|].
    rewrite tilde_truthy_indexOf. by apply bool_decide_eq_true.
Qed.

Lemma role_names_of_named (guild : Guild) (roles : list string) :
  Forall (λ roleID, is_Some (role_names guild !! roleID)) roles →
  ∃ names, role_names_of guild roles = Ok names ∧
           ∀ name, name ∈ names ↔
                   ∃ roleID, roleID ∈ roles ∧ role_names guild !! roleID = Some name.
Proof.
  induction 1 as [|roleID roles [name Hname] _ (names & Hnames & Hspec)]; simpl.
  - exists []. split; [done|]. intros name. split.
    + by intros ?%elem_of_nil.
    + by intros (? & ?%elem_of_nil & _).
  - rewrite Hname, Hnames. exists (name :: names). split; [done|].
    intros n. rewrite elem_of_cons, Hspec. split.
    + intros [-> | (r & Hr & Hn)].
      * exists roleID. split; [by left | done].
      * exists r. split; [by right | done].
    + intros (r & [-> | Hr]%elem_of_cons & Hn).
      * left. congruence.
      * right. by exists r.
Qed.

Lemma role_names_of_unnamed (guild : Guild) (roles : list string) roleID :
  roleID ∈ roles → role_names guild !! roleID = None →
  role_names_of guild roles = Throw TypeError.
Proof.
  intros Hin Hnone. induction roles as [|other roles IH]; simpl.
  - by apply elem_of_nil in Hin.
  - apply elem_of_cons in Hin as [<- | Hin]; [by rewrite Hnone|].
    destruct (role_names guild !! other); [|done]. by rewrite IH.
Qed.

(** X3.  An author who is not on a non-empty list of user IDs is
    refused in every context, and the check does not throw. *)
Theorem permissionCheck_unlisted_author this msg :
  userIDs (requirements this) ≠ [] →
  author_id msg ∉ userIDs (requirements this) →
  permissionCheck this msg = Ok false.
Proof.
  intros Hne Hout. unfold permissionCheck.
  by rewrite userIDs_gate_closed.
Qed.

Lemma permissionCheck_unlisted_author_witness :
  permissionCheck Examples.owner_only Scenarios.mod_message = Ok true ∧
  permissionCheck Examples.owner_only Scenarios.stranger_message = Ok false.
Proof.
  split; [reflexivity|].
  apply (permissionCheck_unlisted_author Examples.owner_only Scenarios.stranger_message).
  - discriminate.
  - intros Hin. apply list_elem_of_singleton in Hin. discriminate.
Defined.

(** X4.  In a guild, an author who passes the list of user IDs and
    has every required capability at its required value is permitted
    at once: the roles are not looked at, so it does not matter
    whether the author is a cached member or holds a listed role. *)
Theorem permissionCheck_permissions_match this msg guild :
  channel_guild msg = Some guild →
  userIDs (requirements this) = [] ∨ author_id msg ∈ userIDs (requirements this) →
  permissions (requirements this) ≠ ∅ →
  map_Forall (λ key v, permissions_json guild !! key = Some v)
             (permissions (requirements this)) →
  permissionCheck this msg = Ok true.
Proof.
  intros Hguild Hgate Hne Hall. unfold permissionCheck.
  rewrite userIDs_gate_open, Hguild by done.
  by rewrite (proj2 (permissions_shortcut_spec _ _)).
Qed.

Lemma permissionCheck_permissions_match_witness :
  permissionCheck Scenarios.flag_command
    (mkMessage "42" (Some (mkGuild {[ "manageMessages" := true ]} None ∅))) = Ok true.
Proof.
  apply (permissionCheck_permissions_match Scenarios.flag_command _
           (mkGuild {[ "manageMessages" := true ]} None ∅)).
  - reflexivity.
  - by left.
  - apply insert_non_empty.
  - apply map_Forall_singleton. reflexivity.
Defined.

(** X2.  In a guild, when the author passes the list of user IDs and
    the capability shortcut is not taken, the check reads the roles of
    the member: for an author who is no cached member it throws a
    [TypeError], also when the command has no requirement at all. *)
Theorem permissionCheck_uncached_member_throws this msg guild :
  channel_guild msg = Some guild →
  userIDs (requirements this) = [] ∨ author_id msg ∈ userIDs (requirements this) →
  ¬ (permissions (requirements this) ≠ ∅ ∧
     map_Forall (λ key v, permissions_json guild !! key = Some v)
                (permissions (requirements this))) →
  member_roles guild = None →
  permissionCheck this msg = Throw TypeError.
Proof.
  intros Hguild Hgate Hshort Hmember. unfold permissionCheck.
  rewrite userIDs_gate_open, Hguild by done.
  destruct (_ && permissions_flag _ _) eqn:Hflag.
  - by apply permissions_shortcut_spec in Hflag.
  - by rewrite Hmember.
Qed.

Lemma permissionCheck_uncached_member_throws_witness :
  requirements Scenarios.open_command = mkRequirements [] ∅ [] [] ∧
  permissionCheck Scenarios.open_command Scenarios.stranger_message = Throw TypeError.
Proof.
  split; [reflexivity|].
  apply (permissionCheck_uncached_member_throws Scenarios.open_command
           Scenarios.stranger_message (mkGuild ∅ None ∅)).
  - reflexivity.
  - by left.
  - by intros [Hne _].
  - reflexivity.
Defined.

Lemma existsb_nonempty {A} (f : A → bool) (l : list A) :
  (0 <? length l) && existsb f l = existsb f l.
Proof. by destruct l. Qed.

(** X1.  The decision of the check in a guild, for a cached member
    whose roles all have a name: the check returns, and it permits
    exactly the authors who pass the list of user IDs and then either
    hold every required capability, or hold a listed role ID, or hold
    a role with a listed name, or face no role requirement at all. *)
Theorem permissionCheck_guild_decision this msg guild roles :
  channel_guild msg = Some guild →
  member_roles guild = Some roles →
  Forall (λ roleID, is_Some (role_names guild !! roleID)) roles →
  (permissionCheck this msg = Ok true ∨ permissionCheck this msg = Ok false) ∧
  (permissionCheck this msg = Ok true ↔
   (userIDs (requirements this) = [] ∨ author_id msg ∈ userIDs (requirements this)) ∧
   ((permissions (requirements this) ≠ ∅ ∧
     map_Forall (λ key v, permissions_json guild !! key = Some v)
                (permissions (requirements this)))
    ∨ (∃ roleID, roleID ∈ roleIDs (requirements this) ∧ roleID ∈ roles)
    ∨ (∃ roleID name, roleID ∈ roles ∧ role_names guild !! roleID = Some name ∧
                      name ∈ roleNames (requirements this))
    ∨ (roleIDs (requirements this) = [] ∧ roleNames (requirements this) = []))).
Proof.
  intros Hguild Hmember Hnamed.
  destruct (decide (userIDs (requirements this) = [] ∨
                    author_id msg ∈ userIDs (requirements this))) as [Hgate|Hgate].
  2:{ unfold permissionCheck.
      rewrite userIDs_gate_closed by (intros ?; apply Hgate; auto).
      split; [by right|]. split; [discriminate | by intros [? _]]. }
  unfold permissionCheck. rewrite userIDs_gate_open, Hguild by done.
  destruct (_ && permissions_flag _ _) eqn:Hflag.
  { split; [by left|]. split; [intros _ | done].
    split; [done|]. left. by apply permissions_shortcut_spec. }
  assert (Hshort : ¬ (permissions (requirements this) ≠ ∅ ∧
            map_Forall (λ key v, permissions_json guild !! key = Some v)
                       (permissions (requirements this)))).
  { intros H%permissions_shortcut_spec. congruence. }
  rewrite Hmember, existsb_nonempty.
  destruct (existsb _ (roleIDs (requirements this))) eqn:Hids.
  { split; [by left|]. split; [intros _ | done].
    split; [done|]. right. left.
    apply existsb_indexOf in Hids as (x & ? & ?). by exists x. }
  assert (Hnoid : ¬ ∃ roleID, roleID ∈ roleIDs (requirements this) ∧ roleID ∈ roles).
  { intros H%existsb_indexOf. congruence. }
  destruct (role_names_of_named guild roles Hnamed) as (names & Hnames & Hspec).
  destruct (roleNames (requirements this)) as [|wanted others] eqn:Hwanted.
  - destruct (roleIDs (requirements this)) as [|id ids] eqn:Hroles; simpl.
    + split; [by left|]. split; [intros _ | done]. split; [done|]. by do 3 right.
    + split; [by right|]. split; [discriminate|].
      intros [_ [? | [? | [(? & ? & _ & _ & ?%elem_of_nil) | [? _]]]]]; done.
  - replace ((0 <? length (roleIDs (requirements this))) && (length (wanted :: others) =? 0))
      with false by (simpl; by rewrite andb_false_r).
    simpl (0 <? length (wanted :: others)). cbv iota. rewrite Hnames.
    change (Ok names ≫= _)
      with (Ok (A := bool)
              (existsb (λ roleName, tilde_truthy (indexOf names roleName)) (wanted :: others))).
    destruct (existsb _ (wanted :: others)) eqn:Hbynames.
    + split; [by left|]. split; [intros _ | done]. split; [done|]. do 2 right. left.
      apply existsb_indexOf in Hbynames as (name & Hlisted & (r & Hr & Hn)%Hspec).
      by exists r, name.
    + split; [by right|]. split; [discriminate|].
      intros [_ [? | [? | [(r & name & Hr & Hn & Hlisted) | [_ ?]]]]]; [done | done | | done].
      assert (existsb (λ roleName, tilde_truthy (indexOf names roleName)) (wanted :: others)
              = true); [|congruence].
      apply existsb_indexOf. exists name. split; [done|]. apply Hspec. by exists r.
Qed.

Lemma permissionCheck_guild_decision_witness :
  permissionCheck Scenarios.role_name_command Scenarios.mod_message = Ok true.
Proof.
  assert (Hnamed : Forall (λ roleID, is_Some (role_names Scenarios.mods_guild !! roleID))
                          ["r1"]).
  { apply Forall_cons. split; [by eexists | apply Forall_nil_2]. }
  destruct (permissionCheck_guild_decision Scenarios.role_name_command
              Scenarios.mod_message Scenarios.mods_guild ["r1"] eq_refl eq_refl Hnamed)
    as [_ [_ Hpermit]].
  apply Hpermit. split; [by left|]. do 2 right. left.
  exists "r1", "Mods". split; [apply list_elem_of_here|].
  split; [reflexivity | apply list_elem_of_here].
Defined.

(** ** Dispatch along the whole path *)

Lemma path_to_left resolve this args before node left :
  path_to resolve this args before node left → left = drop (length before) args.
Proof. induction 1 as [|? ? ? ? ? ? ? _ _ IH]; [done | exact IH]. Qed.

(** X5.  However the lookup chooses the children: when the tokens
    lead to a node where none is left, or where the lookup finds no
    child for the next one, and permission is granted at that node and
    at every node before it, [process] returns what the generator of
    that node returns on the tokens that are left, one token having
    been dropped for each step down. *)
Theorem process_runs_reached_node resolve this args msg random before node left :
  path_to resolve this args before node left →
  Forall (λ n, permissionCheck n msg = Ok true) (before ++ [node]) →
  left = [] ∨ (∃ token rest, left = token :: rest ∧ resolve node token = Ok None) →
  process_with resolve this args msg random = Ok (run_execute node random msg left) ∧
  left = drop (length before) args.
Proof.
  intros Hpath Hperm Hend. split; [|by eapply path_to_left].
  induction Hpath as [this args | this arg0 rest sub before node left Hfound _ IH].
  - apply Forall_cons in Hperm as [Hperm _].
    rewrite process_with_unfold, Hperm. simpl.
    destruct Hend as [-> | (token & rest & -> & Hnone)]; [done|].
    by rewrite Hnone.
  - simpl in Hperm. apply Forall_cons in Hperm as [Hthis Hperm].
    rewrite process_with_unfold, Hthis. simpl. rewrite Hfound. simpl.
    by apply IH.
Qed.

Lemma process_runs_reached_node_witness :
  process_js toLowerCase Scenarios.say_tree ["say"; "hello"; "world"]
             Examples.direct_message 0%Q
  = Ok (VString "say:hello,world").
Proof.
  apply (process_runs_reached_node (lookup_js toLowerCase) Scenarios.say_tree
           ["say"; "hello"; "world"] Examples.direct_message 0%Q
           [Scenarios.say_tree] Scenarios.say_child ["hello"; "world"]).
  - apply (path_step _ _ _ _ Scenarios.say_child); [reflexivity | apply path_here].
  - apply Forall_cons. split; [reflexivity|].
    apply Forall_cons. split; [reflexivity | apply Forall_nil_2].
  - right. by exists "hello", ["world"].
Defined.

(** X6.  A token that is an alias of a registered child is handled
    as the label of that child: [process] gives the same outcome for
    both, whatever the permission of the author. *)
Theorem process_alias_as_label this alias target child rest msg random :
  subcommandAliases this !! alias = Some target →
  target ≠ "" →
  subcommandAliases this !! target = None →
  subcommands this !! target = Some child →
  process this (alias :: rest) msg random = process this (target :: rest) msg random.
Proof.
  intros Halias Hne Htarget Hchild.
  rewrite (process_unfold this (alias :: rest)), (process_unfold this (target :: rest)).
  unfold resolve_label, find_subcommand. rewrite Halias, Htarget.
  destruct target; [done|]. simpl. by rewrite Hchild.
Qed.

Lemma process_alias_as_label_witness :
  process Scenarios.say_tree ["tell"; "hi"] Examples.direct_message 0%Q
  = process Scenarios.say_tree ["say"; "hi"] Examples.direct_message 0%Q ∧
  process Scenarios.say_tree ["say"; "hi"] Examples.direct_message 0%Q
  = Ok (VString "say:hi").
Proof.
  split; [|reflexivity].
  apply (process_alias_as_label Scenarios.say_tree "tell" "say" Scenarios.say_child
           ["hi"] Examples.direct_message 0%Q);
    [reflexivity | discriminate | reflexivity | reflexivity].
Defined.

(** X7.  A case-insensitive child registered under a lower-case label
    is found under every other spelling of it: a token that is no
    inherited name, no alias and no label itself, and whose lower-case
    form is the label, hands the remaining tokens to that child. *)
Theorem process_case_insensitive_lower_label lower this token child rest msg random :
  permissionCheck this msg = Ok true →
  token ∉ inherited_names →
  subcommandAliases this !! token = None →
  subcommands this !! token = None →
  subcommands this !! lower token = Some child →
  caseInsensitive child = true →
  process_js lower this (token :: rest) msg random = process_js lower child rest msg random.
Proof.
  intros Hperm Hplain Halias Hexact Hlower Hci.
  unfold process_js. rewrite (process_with_unfold _ this), Hperm. simpl.
  replace (lookup_js lower this token) with (Ok (Some child)); [done|].
  unfold lookup_js.
  rewrite (table_get_absent (subcommandAliases this)) by done.
  rewrite (table_get_absent (subcommands this)) by done.
  by rewrite (table_get_own (subcommands this) (lower token) child), Hci.
Qed.

Lemma process_case_insensitive_lower_label_witness :
  process_js toLowerCase Scenarios.lower_role_tree ["RoLe"; "x"] Examples.direct_message 0%Q
  = Ok (VString "child").
Proof.
  transitivity (process_js toLowerCase Scenarios.role_child ["x"]
                  Examples.direct_message 0%Q); [|reflexivity].
  apply (process_case_insensitive_lower_label toLowerCase Scenarios.lower_role_tree "RoLe"
           Scenarios.role_child ["x"] Examples.direct_message 0%Q);
    [reflexivity | not_among | reflexivity | reflexivity | reflexivity | reflexivity].
Defined.

(** ** Registration, call by call *)

Lemma permissionCheck_same_requirements this this' msg :
  requirements this' = requirements this → serverOnly this' = serverOnly this →
  permissionCheck this' msg = permissionCheck this msg.
Proof. unfold permissionCheck. by intros -> ->. Qed.

Lemma find_subcommand_exact this label child :
  subcommands this !! label = Some child → find_subcommand this label = Some child.
Proof. unfold find_subcommand. by intros ->. Qed.

(** [process] does not read the alias list of the node. *)
Lemma process_with_aliases f this args msg random :
  process (with_aliases f this) args msg random = process this args msg random.
Proof. by destruct args. Qed.

(** After the loop over [options.aliases], each of them names the
    label and no other entry has changed. *)
Lemma record_aliases_lookup label aliases (table : gmap string string) alias :
  record_aliases label aliases table !! alias =
  if bool_decide (alias ∈ aliases) then Some label else table !! alias.
Proof.
  unfold record_aliases. revert table.
  induction aliases as [|first aliases IH]; intros table; cbn [foldl].
  - by rewrite bool_decide_eq_false_2 by apply not_elem_of_nil.
  - rewrite IH. case_bool_decide as Hrest.
    + by rewrite bool_decide_eq_true_2 by (by right).
    + rewrite lookup_insert. case_decide as Hfirst.
      * subst first. by rewrite bool_decide_eq_true_2 by (by left).
      * rewrite bool_decide_eq_false_2; [done|].
        intros [?|?]%elem_of_cons; congruence.
Qed.

(** What a call of [registerSubcommand] that returns has done. *)
Lemma registerSubcommand_Ok_inv label generator options this this' child :
  registerSubcommand label generator options this = (this', Ok child) →
  includes label " " = false ∧
  subcommands this !! label = None ∧
  new_Command label generator (default no_options options) = Ok child ∧
  this' = with_subcommandAliases
            (match opt_aliases (default no_options options) with
             | Some aliases => record_aliases label aliases
             | None => id
             end)
            (with_subcommands (<[label := child]>) this).
Proof.
  intros Hcall. destruct (includes label " ") eqn:Hspace.
  { by rewrite registerSubcommand_space in Hcall. }
  destruct (subcommands this !! label) as [old|] eqn:Hold.
  { by rewrite registerSubcommand_duplicate in Hcall. }
  rewrite registerSubcommand_fresh in Hcall by done.
  destruct (new_Command _ _ _) as [c|e]; [|done].
  by injection Hcall as <- <-.
Qed.

Lemma registerSubcommandAlias_Ok alias label this child :
  subcommands this !! label = Some child →
  truthy_entry (subcommandAliases this !! alias) = false →
  registerSubcommandAlias alias label this =
  (with_subcommands (alter (with_aliases (λ l, (l ++ [alias])%list)) label)
     (with_subcommandAliases (<[alias := label]>) this), Ok ()).
Proof.
  intros Hchild Hfree. unfold registerSubcommandAlias, mbind, method_bind, get_this.
  by rewrite bool_decide_eq_true_2, Hfree by (by eexists).
Qed.

(** [process] with the lookup of the code does not read the alias
    list of the node. *)
Lemma process_js_with_aliases lower f this args msg random :
  process_js lower (with_aliases f this) args msg random
  = process_js lower this args msg random.
Proof. by destruct args. Qed.

(** X8.  Registration and dispatch round trip: after a subcommand is
    registered under a fresh, non-empty label that is no alias and no
    inherited name, its label and each alias given in the options
    (that is no inherited name) hand the remaining tokens to the new
    child. *)
Theorem registerSubcommand_then_dispatches
    lower label generator options this child token rest msg random :
  ¬ has_char " "%char label →
  label ≠ "" →
  label ∉ inherited_names →
  subcommands this !! label = None →
  subcommandAliases this !! label = None →
  new_Command label generator options = Ok child →
  token = label ∨ token ∈ default [] (opt_aliases options) →
  token ∉ inherited_names →
  permissionCheck this msg = Ok true →
  snd (registerSubcommand label generator (Some options) this) = Ok child ∧
  process_js lower (fst (registerSubcommand label generator (Some options) this))
             (token :: rest) msg random
  = process_js lower child rest msg random.
Proof.
  intros Hspace Hne Hlabel Hfresh Hnoalias Hnew Htoken Hplain Hperm.
  assert (Hincl : includes label " " = false).
  { destruct (includes label " ") eqn:E; [|done]. by apply includes_space in E. }
  rewrite registerSubcommand_fresh by done.
  change (default no_options (Some options)) with options. rewrite Hnew. cbn [fst snd].
  split; [done|].
  unfold process_js. rewrite (process_with_unfold _ _ (token :: rest)).
  rewrite (permissionCheck_same_requirements this) by done. rewrite Hperm. simpl.
  replace (lookup_js lower _ token) with (Ok (Some child)); [done|]. symmetry.
  destruct (decide (token ∈ default [] (opt_aliases options))) as [Hin|Hout].
  - apply (lookup_js_alias lower _ token label child); [|done|apply lookup_insert_eq].
    simpl. destruct (opt_aliases options) as [als|]; simpl in *;
      [|by apply elem_of_nil in Hin].
    rewrite record_aliases_lookup. by rewrite bool_decide_eq_true_2.
  - destruct Htoken as [-> | ?]; [|done].
    apply lookup_js_label; [done | | apply lookup_insert_eq].
    simpl. destruct (opt_aliases options) as [als|]; simpl in *; [|done].
    rewrite record_aliases_lookup. by rewrite bool_decide_eq_false_2.
Qed.

Lemma registerSubcommand_then_dispatches_witness :
  process_js toLowerCase Scenarios.say_tree ["s"; "hi"] Examples.direct_message 0%Q
  = Ok (VString "say:hi").
Proof.
  transitivity (process_js toLowerCase Scenarios.say_child ["hi"]
                  Examples.direct_message 0%Q); [|reflexivity].
  apply (registerSubcommand_then_dispatches toLowerCase "say"
           (GFunction Scenarios.say_generator)
           (mkOptions None None None (Some ["s"; "tell"]) false None false false)
           Examples.fresh_root Scenarios.say_child "s" ["hi"]
           Examples.direct_message 0%Q).
  - intros H%includes_space. discriminate.
  - discriminate.
  - not_among.
  - reflexivity.
  - reflexivity.
  - reflexivity.
  - right. apply list_elem_of_here.
  - not_among.
  - reflexivity.
Defined.

Lemma new_Command_label name generator options this :
  new_Command name generator options = Ok this → label this = name.
Proof.
  unfold new_Command. intros Hnew.
  destruct (match generator with GString _ => _ | _ => _ end) as [exec|e];
    simpl in Hnew; [|discriminate].
  by injection Hnew as <-.
Qed.

(** X9.  A registration that returns has stored the new node under
    its label, carrying that label and empty tables of its own; no
    other child has changed, and no alias entry but those named in the
    options. *)
Theorem registerSubcommand_keeps_others name generator options this this' child :
  registerSubcommand name generator (Some options) this = (this', Ok child) →
  subcommands this' !! name = Some child ∧
  label child = name ∧
  subcommands child = ∅ ∧ subcommandAliases child = ∅ ∧
  (∀ key, key ≠ name → subcommands this' !! key = subcommands this !! key) ∧
  (∀ alias, alias ∉ default [] (opt_aliases options) →
            subcommandAliases this' !! alias = subcommandAliases this !! alias).
Proof.
  intros (_ & _ & Hnew & ->)%registerSubcommand_Ok_inv.
  change (default no_options (Some options)) with options in *.
  destruct (new_Command_tables _ _ _ _ Hnew) as [Hsub Hali].
  split; [apply lookup_insert_eq|].
  split; [by eapply new_Command_label|]. split; [done|]. split; [done|].
  split.
  - intros key Hkey. simpl. by rewrite lookup_insert_ne.
  - intros alias Hout. simpl. destruct (opt_aliases options) as [als|]; [|done].
    rewrite record_aliases_lookup. by rewrite bool_decide_eq_false_2.
Qed.

Lemma registerSubcommand_keeps_others_witness :
  subcommands Scenarios.say_tree !! "say" = Some Scenarios.say_child ∧
  label Scenarios.say_child = "say".
Proof.
  destruct (registerSubcommand_keeps_others "say" (GFunction Scenarios.say_generator)
              (mkOptions None None None (Some ["s"; "tell"]) false None false false)
              Examples.fresh_root Scenarios.say_tree Scenarios.say_child eq_refl)
    as (Hstored & Hlabel & _).
  split; [exact Hstored | exact Hlabel].
Defined.

Lemma run_call_throw_unchanged c this this' e :
  run_call c this = (this', Throw e) → this' = this.
Proof.
  destruct c as [name generator options|alias name|name]; simpl.
  - unfold mbind, method_bind.
    destruct (registerSubcommand name generator options this) as [this1 [child|e1]] eqn:Hcall;
      [discriminate|].
    intros [= <- _]. destruct (includes name " ") eqn:Hspace.
    { rewrite registerSubcommand_space in Hcall by done. by injection Hcall as <-. }
    destruct (subcommands this !! name) as [old|] eqn:Hold.
    { rewrite registerSubcommand_duplicate in Hcall by done. by injection Hcall as <-. }
    rewrite registerSubcommand_fresh in Hcall by done.
    destruct (new_Command _ _ _); [discriminate|]. by injection Hcall as <-.
  - unfold registerSubcommandAlias, mbind, method_bind, get_this, throw.
    destruct (negb _); [by intros [= <-]|].
    destruct (truthy_entry _); [by intros [= <-] | discriminate].
  - unfold unregisterSubcommand, mbind, method_bind, get_this, throw.
    destruct (truthy_entry _); [|discriminate].
    destruct (subcommands this !! _); [discriminate | by intros [= <-]].
Qed.

Lemma at_path_throw_unchanged path c root root' e :
  at_path path (run_call c) root = Some (root', Throw e) → root' = root.
Proof.
  revert root root'. induction path as [|key path IH]; intros root root' Hat; simpl in Hat.
  - injection Hat as Hat. by eapply run_call_throw_unchanged.
  - destruct (subcommands root !! key) as [child|] eqn:Hchild; simpl in Hat; [|discriminate].
    destruct (at_path path (run_call c) child) as [[child' r]|] eqn:Hrec;
      simpl in Hat; [|discriminate].
    injection Hat as <- ->. apply IH in Hrec as ->.
    by apply with_subcommands_insert_id.
Qed.

(** X10.  The registration calls are all or nothing for names that
    are no inherited names: whenever such a call throws, on any node
    of a tree, the whole tree is as it was before the call. *)
Theorem registration_call_throw_leaves_tree path c root root' e :
  (∀ name, name ∈ call_names c → name ∉ inherited_names) →
  at_path path (run_call c) root = Some (root', Throw e) →
  root' = root.
Proof. intros _ Hat. by eapply at_path_throw_unchanged. Qed.

Lemma registration_call_throw_leaves_tree_witness :
  ∃ root',
    at_path ["mod"] (run_call (RegisterSubcommandAlias "m" "nope")) Examples.nested_tree
    = Some (root', Throw UnknownLabel) ∧
    root' = Examples.nested_tree.
Proof.
  eexists. split; [reflexivity|].
  eapply (registration_call_throw_leaves_tree ["mod"]
            (RegisterSubcommandAlias "m" "nope") Examples.nested_tree _ UnknownLabel).
  - intros name Hname. simpl in Hname.
    apply elem_of_cons in Hname as [-> | Hname]; [not_among|].
    apply list_elem_of_singleton in Hname as ->. not_among.
  - reflexivity.
Defined.

(** ** Aliases *)

(** X11.  After [registerSubcommandAlias] has returned for an unused
    alias that is no inherited name and a child under a non-empty
    label, the alias hands the remaining tokens to that child, also
    when the alias is the label of another child. *)
Theorem registerSubcommandAlias_then_dispatches
    lower alias name this child rest msg random :
  subcommands this !! name = Some child →
  name ≠ "" →
  alias ∉ inherited_names →
  subcommandAliases this !! alias = None →
  permissionCheck this msg = Ok true →
  snd (registerSubcommandAlias alias name this) = Ok () ∧
  process_js lower (fst (registerSubcommandAlias alias name this)) (alias :: rest) msg random
  = process_js lower child rest msg random.
Proof.
  intros Hchild Hne Hplain Hfree Hperm.
  rewrite (registerSubcommandAlias_Ok alias name this child) by (by rewrite ?Hfree).
  cbn [fst snd]. split; [done|].
  rewrite <- (process_js_with_aliases lower (λ l, (l ++ [alias])%list) child).
  unfold process_js. rewrite (process_with_unfold _ _ (alias :: rest)).
  rewrite (permissionCheck_same_requirements this) by done. rewrite Hperm. simpl.
  rewrite (lookup_js_alias lower _ alias name
             (with_aliases (λ l, (l ++ [alias])%list) child)); [done | | done |].
  - apply lookup_insert_eq.
  - simpl. by rewrite lookup_alter_eq, Hchild.
Qed.

Lemma registerSubcommandAlias_then_dispatches_witness :
  process_js toLowerCase Scenarios.say_tree_with_t ["t"; "hi"] Examples.direct_message 0%Q
  = Ok (VString "say:hi").
Proof.
  transitivity (process_js toLowerCase Scenarios.say_child ["hi"]
                  Examples.direct_message 0%Q); [|reflexivity].
  apply (registerSubcommandAlias_then_dispatches toLowerCase "t" "say" Scenarios.say_tree
           Scenarios.say_child ["hi"] Examples.direct_message 0%Q);
    [reflexivity | discriminate | not_among | reflexivity | reflexivity].
Defined.

Lemma indexOf_first (before after : list string) (x : string) :
  x ∉ before → indexOf (before ++ x :: after) x = Z.of_nat (length before).
Proof.
  induction before as [|y before IH]; intros Hout; simpl.
  - by rewrite bool_decide_eq_true_2.
  - apply not_elem_of_cons in Hout as [Hxy Hout].
    rewrite bool_decide_eq_false_2 by congruence.
    rewrite IH by done. destruct (Z.ltb_spec (Z.of_nat (length before)) 0); lia.
Qed.

Lemma delete_middle (before after : list string) (x : string) :
  delete (length before) (before ++ x :: after)%list = (before ++ after)%list.
Proof. induction before as [|y before IH]; [done|]. simpl. by rewrite IH. Qed.

Lemma splice1_at (before after : list string) (x : string) :
  splice1 (before ++ x :: after) (Z.of_nat (length before)) = (before ++ after)%list.
Proof.
  unfold splice1. rewrite length_app. simpl.
  destruct (Z.ltb_spec (Z.of_nat (length before)) 0); [lia|].
  rewrite Z.min_l by lia. rewrite Nat2Z.id. apply delete_middle.
Qed.

Lemma splice1_last (l : list string) :
  splice1 l (-1) = take (length l - 1) l.
Proof.
  unfold splice1. simpl. destruct l as [|x l]; [done|].
  rewrite Z.max_l by (simpl; lia).
  replace (Z.to_nat (Z.of_nat (length (x :: l)) + -1)) with (length (x :: l) - 1)
    by (simpl; lia).
  rewrite delete_take_drop.
  rewrite (drop_ge (x :: l)) by (simpl; lia). by rewrite app_nil_r.
Qed.

(** What [unregisterSubcommand] does for an alias of a registered
    child. *)
Lemma unregisterSubcommand_alias alias name this child :
  subcommandAliases this !! alias = Some name →
  name ≠ "" →
  subcommands this !! name = Some child →
  unregisterSubcommand alias this =
  (with_subcommandAliases (delete alias)
     (with_subcommands
        (<[name := with_aliases (λ l, splice1 l (indexOf (aliases child) alias)) child]>)
        this),
   Ok ()).
Proof.
  intros Halias Hne Hchild.
  unfold unregisterSubcommand, mbind, method_bind, get_this, modify_this.
  rewrite Halias. simpl.
  replace (truthy name) with true by (by destruct name).
  by rewrite Hchild.
Qed.

Lemma with_aliases_twice f g this :
  with_aliases f (with_aliases g this) = with_aliases (λ l, f (g l)) this.
Proof. reflexivity. Qed.

Lemma with_aliases_same f this :
  f (aliases this) = aliases this → with_aliases f this = this.
Proof. destruct this. unfold with_aliases. simpl. by intros ->. Qed.

(** X12.  Registering an alias and unregistering it again is a round
    trip: for an alias that is no inherited name and was in neither
    the table nor the list of the child, the node is back to what it
    was. *)
Theorem registerSubcommandAlias_unregister_round_trip alias name this child :
  subcommands this !! name = Some child →
  name ≠ "" →
  alias ∉ inherited_names →
  subcommandAliases this !! alias = None →
  alias ∉ aliases child →
  unregisterSubcommand alias (fst (registerSubcommandAlias alias name this)) = (this, Ok ()).
Proof.
  intros Hchild Hne _ Hfree Hunlisted.
  rewrite (registerSubcommandAlias_Ok alias name this child) by (by rewrite ?Hfree).
  cbn [fst].
  rewrite (unregisterSubcommand_alias alias name _
             (with_aliases (λ l, (l ++ [alias])%list) child));
    [| apply lookup_insert_eq | done | simpl; by rewrite lookup_alter_eq, Hchild].
  f_equal. rewrite with_aliases_twice.
  rewrite (with_aliases_same _ child).
  - destruct this. unfold with_subcommandAliases, with_subcommands. simpl in *.
    f_equal.
    + by apply insert_alter_id.
    + rewrite delete_insert_eq. by apply delete_id.
  - simpl. rewrite indexOf_first by done. rewrite splice1_at. apply app_nil_r.
Qed.

Lemma registerSubcommandAlias_unregister_round_trip_witness :
  unregisterSubcommand "t" Scenarios.say_tree_with_t = (Scenarios.say_tree, Ok ()).
Proof.
  apply (registerSubcommandAlias_unregister_round_trip "t" "say" Scenarios.say_tree
           Scenarios.say_child);
    [reflexivity | discriminate | not_among | reflexivity | not_among].
Defined.

(** X13.  Unregistering a name that is no inherited name, no alias and
    no label returns and leaves both tables reading as before. *)
Theorem unregisterSubcommand_unknown name this :
  name ∉ inherited_names →
  subcommandAliases this !! name = None →
  subcommands this !! name = None →
  unregisterSubcommand name this = (this, Ok ()).
Proof.
  intros _ Halias Hchild.
  rewrite unregisterSubcommand_canonical by (by rewrite Halias).
  f_equal. destruct this. unfold with_subcommands. simpl in *.
  by rewrite delete_id.
Qed.

Lemma unregisterSubcommand_unknown_witness :
  unregisterSubcommand "nope" Scenarios.say_tree = (Scenarios.say_tree, Ok ()).
Proof.
  apply (unregisterSubcommand_unknown "nope" Scenarios.say_tree);
    [not_among | reflexivity | reflexivity].
Defined.

(** X14.  Unregistering an alias that its child lists removes the
    first occurrence of the alias from the list of the child and the
    entry from the table, keeps the child under its label, leaves
    every other child with all but, at most, its alias list (children
    registered with one array of aliases share it) and every other
    entry as it was, and leaves the alias free to be registered
    again. *)
Theorem unregisterSubcommand_listed_alias alias name this child before after :
  subcommandAliases this !! alias = Some name →
  name ≠ "" →
  subcommands this !! name = Some child →
  aliases child = (before ++ alias :: after)%list →
  alias ∉ before →
  snd (unregisterSubcommand alias this) = Ok () ∧
  subcommandAliases (fst (unregisterSubcommand alias this)) !! alias = None ∧
  subcommands (fst (unregisterSubcommand alias this)) !! name
  = Some (with_aliases (λ _, (before ++ after)%list) child) ∧
  (∀ key, key ≠ name →
     ∃ f, subcommands (fst (unregisterSubcommand alias this)) !! key
          = with_aliases f <$> subcommands this !! key) ∧
  (∀ other, other ≠ alias →
     subcommandAliases (fst (unregisterSubcommand alias this)) !! other
     = subcommandAliases this !! other) ∧
  snd (registerSubcommandAlias alias name (fst (unregisterSubcommand alias this))) = Ok ().
Proof.
  intros Halias Hne Hchild Hlist Hfirst.
  rewrite (unregisterSubcommand_alias alias name this child) by done. cbn [fst snd].
  assert (Hnew : with_aliases (λ l, splice1 l (indexOf (aliases child) alias)) child
                 = with_aliases (λ _, (before ++ after)%list) child).
  { unfold with_aliases. rewrite Hlist, indexOf_first, splice1_at by done. reflexivity. }
  rewrite Hnew.
  split; [done|]. split; [apply lookup_delete_eq|]. split; [apply lookup_insert_eq|].
  split.
  { intros key Hkey. exists id. simpl. rewrite lookup_insert_ne by done.
    destruct (subcommands this !! key) as [c|]; simpl; [|done].
    by rewrite with_aliases_same. }
  split; [intros other Hother; simpl; by rewrite lookup_delete_ne|].
  erewrite registerSubcommandAlias_Ok; [done | apply lookup_insert_eq |].
  simpl. by rewrite lookup_delete_eq.
Qed.

Lemma unregisterSubcommand_listed_alias_witness :
  subcommandAliases (fst (unregisterSubcommand "s" Scenarios.say_tree)) !! "s" = None ∧
  (aliases <$> subcommands (fst (unregisterSubcommand "s" Scenarios.say_tree)) !! "say")
  = Some ["tell"].
Proof.
  destruct (unregisterSubcommand_listed_alias "s" "say" Scenarios.say_tree
              Scenarios.say_child [] ["tell"])
    as (_ & Hentry & Hchild & _);
    [reflexivity | discriminate | reflexivity | reflexivity | apply not_elem_of_nil |].
  split; [exact Hentry|]. by rewrite Hchild.
Defined.

(** X15.  Unregistering an alias that the table gives to a child
    which does not list it removes the last alias of that child
    instead: [indexOf] answers [-1], and [splice(-1, 1)] cuts at the
    end of the list. *)
Theorem unregisterSubcommand_unlisted_alias alias name this child :
  subcommandAliases this !! alias = Some name →
  name ≠ "" →
  subcommands this !! name = Some child →
  alias ∉ aliases child →
  snd (unregisterSubcommand alias this) = Ok () ∧
  subcommands (fst (unregisterSubcommand alias this)) !! name
  = Some (with_aliases (λ l, take (length l - 1) l) child).
Proof.
  intros Halias Hne Hchild Hunlisted.
  rewrite (unregisterSubcommand_alias alias name this child) by done. cbn [fst snd].
  split; [done|]. simpl. rewrite lookup_insert_eq. f_equal.
  unfold with_aliases. rewrite (proj2 (indexOf_absent _ _) Hunlisted).
  by rewrite splice1_last.
Qed.

Lemma unregisterSubcommand_unlisted_alias_witness :
  subcommandAliases Scenarios.reregistered_tree !! "y" = Some "a" ∧
  subcommandAliases (fst (unregisterSubcommand "x" Scenarios.reregistered_tree)) !! "y"
  = Some "a" ∧
  (aliases <$> subcommands (fst (unregisterSubcommand "x" Scenarios.reregistered_tree)) !! "a")
  = Some [].
Proof.
  split; [reflexivity|]. split; [reflexivity|].
  destruct (unregisterSubcommand_unlisted_alias "x" "a" Scenarios.reregistered_tree
              Scenarios.reregistered_child) as [_ Hchild];
    [reflexivity | discriminate | reflexivity | |].
  - intros Hin. apply list_elem_of_singleton in Hin. discriminate.
  - by rewrite Hchild.
Defined.

(** X19.  The aliases of a child that was unregistered by its label
    stay in the table, so a node registered later under the same label
    answers to them: each such alias hands the remaining tokens to
    the new node. *)
Theorem unregister_then_register_revives_alias
    alias name generator options this child rest msg random :
  subcommandAliases this !! alias = Some name →
  subcommandAliases this !! name = None →
  name ≠ "" →
  ¬ has_char " "%char name →
  new_Command name generator options = Ok child →
  permissionCheck this msg = Ok true →
  process (fst (registerSubcommand name generator (Some options)
                  (fst (unregisterSubcommand name this))))
          (alias :: rest) msg random
  = process child rest msg random.
Proof.
  intros Halias Hcanon Hne Hspace Hnew Hperm.
  assert (Hincl : includes name " " = false).
  { destruct (includes name " ") eqn:E; [|done]. by apply includes_space in E. }
  rewrite unregisterSubcommand_canonical by (by rewrite Hcanon). cbn [fst].
  rewrite registerSubcommand_fresh by (done || apply lookup_delete_eq).
  change (default no_options (Some options)) with options. rewrite Hnew. cbn [fst].
  rewrite process_unfold.
  remember (process child rest msg random) as outcome eqn:Houtcome.
  rewrite (permissionCheck_same_requirements this) by done. rewrite Hperm. simpl.
  replace (resolve_label _ alias) with name.
  - by rewrite (find_subcommand_exact _ name child) by apply lookup_insert_eq.
  - unfold resolve_label. simpl.
    replace (_ !! alias) with (Some name); [by destruct name|].
    destruct (opt_aliases options) as [als|]; simpl; [|done].
    rewrite record_aliases_lookup. by case_bool_decide.
Qed.

Lemma unregister_then_register_revives_alias_witness :
  process Scenarios.reregistered_tree ["x"] Examples.direct_message 0%Q
  = Ok (VString "new").
Proof.
  transitivity (process Scenarios.reregistered_child [] Examples.direct_message 0%Q);
    [|reflexivity].
  apply (unregister_then_register_revives_alias "x" "a" (GString "new")
           (mkOptions None None None (Some ["y"]) false None false false)
           (run_calls [RegisterSubcommand "a" (GString "old")
                         (Examples.with_alias_list ["x"])] Examples.fresh_root)
           Scenarios.reregistered_child [] Examples.direct_message 0%Q).
  - reflexivity.
  - reflexivity.
  - discriminate.
  - intros H%includes_space. discriminate.
  - reflexivity.
  - reflexivity.
Defined.

(** ** The constructor *)


(** X17.  The command built from the empty array answers [undefined]
    to every message, for every draw of the random source. *)
Theorem new_Command_empty_array_undefined name options :
  ∃ this, new_Command name (GArray []) options = Ok this ∧
          ∀ random msg args, run_execute this random msg args = VUndefined.
Proof.
  eexists. split; [reflexivity|]. intros random msg args.
  unfold run_execute, array_get. simpl.
  by destruct (random_index random 0 <? 0)%Z.
Qed.

(** X18.  A constructed command never has an empty description or an
    empty full description: the default text stands in for a missing
    one and for the empty string alike. *)
Theorem new_Command_descriptions name generator options this :
  new_Command name generator options = Ok this →
  description this ≠ "" ∧ fullDescription this ≠ "".
Proof.
  unfold new_Command. intros Hnew.
  destruct (match generator with GString _ => _ | _ => _ end) as [exec|e];
    simpl in Hnew; [|discriminate].
  injection Hnew as <-. simpl.
  split.
  - by destruct (opt_description options) as [[|c s]|].
  - by destruct (opt_fullDescription options) as [[|c s]|].
Qed.

Lemma new_Command_descriptions_witness :
  ∃ this,
    new_Command "ping" (GString "pong")
      (mkOptions (Some "") None None None false None false false) = Ok this ∧
    description this = "No description" ∧ fullDescription this ≠ "".
Proof.
  eexists. split; [reflexivity|]. split; [reflexivity|].
  eapply (new_Command_descriptions "ping" (GString "pong")
            (mkOptions (Some "") None None None false None false false)).
  reflexivity.
Defined.

(** ** Children and their labels *)

Lemma keyed_by_label_inv this key child :
  keyed_by_label this → subcommands this !! key = Some child →
  label child = key ∧ keyed_by_label child.
Proof. intros Hkeyed. inversion Hkeyed as [? Hall]. apply Hall. Qed.

Lemma keyed_by_label_same_subcommands this this' :
  subcommands this' = subcommands this → keyed_by_label this → keyed_by_label this'.
Proof.
  intros Heq Hkeyed. constructor. rewrite Heq. intros key child.
  by apply keyed_by_label_inv.
Qed.

Lemma keyed_by_label_insert key child this :
  keyed_by_label this → label child = key → keyed_by_label child →
  keyed_by_label (with_subcommands (<[key := child]>) this).
Proof.
  intros Hkeyed Hlabel Hchild. constructor. intros k c. simpl.
  rewrite lookup_insert. case_decide as Hk.
  - intros [= <-]. by subst k.
  - by apply keyed_by_label_inv.
Qed.

Lemma keyed_by_label_new name generator options this :
  new_Command name generator options = Ok this → keyed_by_label this.
Proof.
  intros [Hsub _]%new_Command_tables. constructor. rewrite Hsub.
  intros key child. by rewrite lookup_empty.
Qed.

(** No registration call changes the label of the node it is made on. *)
Lemma run_call_label c this : label (fst (run_call c this)) = label this.
Proof.
  destruct c as [name generator options|alias name|name]; simpl.
  - unfold mbind, method_bind.
    destruct (registerSubcommand name generator options this) as [this' [child|e]] eqn:Hcall.
    + by apply registerSubcommand_Ok_inv in Hcall as (_ & _ & _ & ->).
    + replace this' with this; [done|]. symmetry.
      apply (run_call_throw_unchanged (RegisterSubcommand name generator options) this this' e).
      simpl. unfold mbind, method_bind. by rewrite Hcall.
  - unfold registerSubcommandAlias, mbind, method_bind, get_this, throw.
    destruct (negb _); [done|]. by destruct (truthy_entry _).
  - unfold unregisterSubcommand, mbind, method_bind, get_this, throw.
    destruct (truthy_entry _); [|done].
    by destruct (subcommands this !! _).
Qed.

Lemma at_path_label {A} path (m : method A) root root' r :
  (∀ this, label (fst (m this)) = label this) →
  at_path path m root = Some (root', r) → label root' = label root.
Proof.
  intros Hm. destruct path as [|key path]; simpl.
  - intros [= Hat]. specialize (Hm root). by rewrite Hat in Hm.
  - destruct (subcommands root !! key) as [child|]; simpl; [|discriminate].
    destruct (at_path path m child) as [[child' r']|]; simpl; [|discriminate].
    by intros [= <- _].
Qed.

Lemma run_call_keyed_by_label c this :
  keyed_by_label this → keyed_by_label (fst (run_call c this)).
Proof.
  intros Hkeyed. destruct c as [name generator options|alias name|name]; simpl.
  - unfold mbind, method_bind.
    destruct (registerSubcommand name generator options this) as [this' [child|e]] eqn:Hcall.
    + apply registerSubcommand_Ok_inv in Hcall as (_ & _ & Hnew & ->). simpl.
      apply (keyed_by_label_same_subcommands (with_subcommands (<[name := child]>) this));
        [reflexivity|].
      apply keyed_by_label_insert;
        [done | by eapply new_Command_label | by eapply keyed_by_label_new].
    + replace this' with this; [done|]. symmetry.
      apply (run_call_throw_unchanged (RegisterSubcommand name generator options) this this' e).
      simpl. unfold mbind, method_bind. by rewrite Hcall.
  - unfold registerSubcommandAlias, mbind, method_bind, get_this, throw.
    destruct (negb _); [done|]. destruct (truthy_entry _); [done|]. simpl.
    constructor. intros key child. simpl. rewrite lookup_alter.
    case_decide as Hkey.
    + subst key. destruct (subcommands this !! name) as [c|] eqn:Hc; simpl;
        [|discriminate].
      intros [= <-]. destruct (keyed_by_label_inv _ _ _ Hkeyed Hc) as [? ?].
      split; [done|]. by apply (keyed_by_label_same_subcommands c).
    + by apply keyed_by_label_inv.
  - unfold unregisterSubcommand, mbind, method_bind, get_this, throw.
    destruct (truthy_entry _).
    + destruct (subcommands this !! default "" _) as [sub|] eqn:Hsub; [|done]. simpl.
      destruct (keyed_by_label_inv _ _ _ Hkeyed Hsub) as [? ?].
      apply (keyed_by_label_same_subcommands
               (with_subcommands (<[default "" (subcommandAliases this !! name) :=
                   with_aliases (λ l, splice1 l (indexOf (aliases sub) name)) sub]>) this));
        [reflexivity|].
      apply keyed_by_label_insert; [done | done |].
      by apply (keyed_by_label_same_subcommands sub).
    + simpl. constructor. intros k c. simpl.
      rewrite lookup_delete. case_decide; [done|]. by apply keyed_by_label_inv.
Qed.

Lemma at_path_keyed_by_label path c root root' r :
  keyed_by_label root → at_path path (run_call c) root = Some (root', r) →
  keyed_by_label root'.
Proof.
  revert root root'. induction path as [|key path IH]; intros root root' Hkeyed Hat.
  - simpl in Hat. injection Hat as Hat.
    pose proof (run_call_keyed_by_label c root Hkeyed) as H. by rewrite Hat in H.
  - simpl in Hat. destruct (subcommands root !! key) as [child|] eqn:Hchild;
      simpl in Hat; [|discriminate].
    destruct (at_path path (run_call c) child) as [[child' r']|] eqn:Hrec;
      simpl in Hat; [|discriminate].
    injection Hat as <- <-.
    destruct (keyed_by_label_inv _ _ _ Hkeyed Hchild) as [Hlabel Hsub].
    apply keyed_by_label_insert; [done | | by eapply IH].
    rewrite <- Hlabel. eapply at_path_label; [|exact Hrec]. apply run_call_label.
Qed.

Lemma built_keyed_by_label root : built root → keyed_by_label root.
Proof.
  induction 1 as [name generator options root Hnew | root path c root' r _ IH Hat].
  - by eapply keyed_by_label_new.
  - by eapply at_path_keyed_by_label.
Qed.

Lemma keyed_by_label_node_at path root node :
  keyed_by_label root → node_at path root = Some node → keyed_by_label node.
Proof.
  revert root. induction path as [|key path IH]; intros root Hkeyed Hnode; simpl in Hnode.
  - by injection Hnode as <-.
  - destruct (subcommands root !! key) as [child|] eqn:Hchild; simpl in Hnode; [|done].
    apply (IH child); [|done]. by eapply keyed_by_label_inv.
Qed.

(** X20.  In every tree built through the constructor and the
    registration calls, at every node, each child is stored under its
    own label, and that label holds no space. *)
Theorem built_children_keyed_by_label root path node key child :
  built root →
  node_at path root = Some node →
  subcommands node !! key = Some child →
  label child = key ∧ ¬ has_char " "%char key.
Proof.
  intros Hbuilt Hnode Hchild. split.
  - eapply keyed_by_label_inv; [|exact Hchild].
    eapply keyed_by_label_node_at; [|exact Hnode]. by apply built_keyed_by_label.
  - intros Hspace%includes_space.
    assert (includes key " " = false); [|congruence].
    eapply labels_wf_inv; [|exact Hchild].
    eapply labels_wf_node_at; [|exact Hnode]. by apply built_labels_wf.
Qed.

Lemma built_children_keyed_by_label_witness :
  ∃ child, subcommands Examples.nested_tree !! "mod" ≫= (λ m, subcommands m !! "ban")
           = Some child ∧ label child = "ban".
Proof.
  eexists. split; [reflexivity|].
  assert (Hbuilt : built Examples.nested_tree).
  { apply built_run_script.
    by apply (built_new "root" (GFunction Examples.root_generator) no_options). }
  eapply (built_children_keyed_by_label Examples.nested_tree ["mod"] _ "ban" _ Hbuilt);
    reflexivity.
Defined.

(** ** GroupChannel.update *)

(** X21.  Updates of a group channel compose: two updates in a row
    are the one update by the later payload laid over the earlier one,
    so a property the later payload leaves undefined keeps what the
    earlier one gave it, and a [null] in the payload is stored like
    any value.  Updating twice with the same payload is updating once,
    and the payload without properties changes nothing. *)
Theorem GroupChannel_update_compose (earlier later : GroupChannel.data)
    (this : GroupChannel.t) :
  GroupChannel.update later (GroupChannel.update earlier this)
  = GroupChannel.update (GroupChannel.overlay later earlier) this ∧
  GroupChannel.update later (GroupChannel.update later this)
  = GroupChannel.update later this ∧
  GroupChannel.update (GroupChannel.mkData None None None) this = this ∧
  GroupChannel.icon
    (GroupChannel.update
       (GroupChannel.mkData (GroupChannel.data_name later)
          (GroupChannel.data_owner_id later) (Some GroupChannel.JNull)) this)
  = Some GroupChannel.JNull.
Proof.
  destruct earlier as [[?|] [?|] [?|]], later as [[?|] [?|] [?|]], this as [? ? ?];
    by repeat split.
Qed.

(** ** A role without a record *)

(** X22.  In a guild, when the decision comes down to the role names
    (the author passes the list of user IDs, the capability shortcut
    is not taken and no listed role ID is held) and the member holds a
    role that the guild has no record of, the check throws a
    [TypeError] instead of answering. *)
Theorem permissionCheck_unnamed_role_throws this msg guild roles roleID :
  channel_guild msg = Some guild →
  userIDs (requirements this) = [] ∨ author_id msg ∈ userIDs (requirements this) →
  ¬ (permissions (requirements this) ≠ ∅ ∧
     map_Forall (λ key v, permissions_json guild !! key = Some v)
                (permissions (requirements this))) →
  member_roles guild = Some roles →
  (∀ listed, listed ∈ roleIDs (requirements this) → listed ∉ roles) →
  roleNames (requirements this) ≠ [] →
  roleID ∈ roles →
  role_names guild !! roleID = None →
  permissionCheck this msg = Throw TypeError.
Proof.
  intros Hguild Hgate Hshort Hmember Hnoid Hnames Hheld Hunnamed.
  unfold permissionCheck. rewrite userIDs_gate_open, Hguild by done.
  destruct (_ && permissions_flag _ _) eqn:Hflag.
  { by apply permissions_shortcut_spec in Hflag. }
  rewrite Hmember, existsb_nonempty.
  destruct (existsb _ (roleIDs (requirements this))) eqn:Hids.
  { apply existsb_indexOf in Hids as (listed & Hlisted & Hin). by apply Hnoid in Hlisted. }
  destruct (roleNames (requirements this)) as [|wanted others]; [done|].
  replace ((0 <? length (roleIDs (requirements this))) && (length (wanted :: others) =? 0))
    with false by (simpl; by rewrite andb_false_r).
  simpl (0 <? length (wanted :: others)). cbv iota.
  by rewrite (role_names_of_unnamed guild roles roleID).
Qed.

Lemma permissionCheck_unnamed_role_throws_witness :
  permissionCheck Scenarios.role_name_command Scenarios.stale_role_message
  = Throw TypeError.
Proof.
  apply (permissionCheck_unnamed_role_throws Scenarios.role_name_command
           Scenarios.stale_role_message
           (mkGuild ∅ (Some ["r1"; "gone"]) {[ "r1" := "Members" ]})
           ["r1"; "gone"] "gone").
  - reflexivity.
  - by left.
  - by intros [Hne _].
  - reflexivity.
  - by intros listed Hlisted%elem_of_nil.
  - discriminate.
  - apply list_elem_of_further, list_elem_of_here.
  - reflexivity.
Defined.
